(** * safe: an encrypted credential store

    A shallow embedding of [safe/database.py], [safe/auth.py], the validators
    and [print_credentials] of [safe/utils.py] and the [cli], [add] and
    [change-password] commands of [safe/main.py], and the properties of the
    record cipher, of the credential store and of the prompts that follow from
    the code.

    The third-party calls of the program (PBKDF2, AES in CBC mode, the JSON and
    UTF-8 codecs, bcrypt) are an interface, [Lib]; each theorem lists the
    contracts of that interface it relies on.  The PKCS#7 padding, the blob
    layout, the table of credentials and the order of effects are modelled
    concretely. *)

From Stdlib.Strings Require Import String Ascii Byte.
From Stdlib Require Import List ZArith Arith Bool Lia.
Import ListNotations.

Set Warnings "-register-all".
Local Open Scope nat_scope.

(* ===================================================================== *)
(** ** Python values, exceptions and results *)
(* ===================================================================== *)

(** [bytes] objects. *)
Definition bytes := list byte.

(** The values [json.loads] may return and [json.dumps] accepts.  A [dict] is a
    list of pairs in insertion order. *)
Inductive pyval : Type :=
| VNone
| VBool (b : bool)
| VInt (z : Z)
| VStr (s : string)
| VList (l : list pyval)
| VDict (d : list (string * pyval)).

(** [Dict[str, str]], the type of a credential's items. *)
Definition Items := list (string * string).

Definition dict_of (m : Items) : pyval :=
  VDict (map (fun kv => (fst kv, VStr (snd kv))) m).

(** The exceptions the modelled code can raise.  [UnicodeDecodeError] and
    [json.JSONDecodeError] are subclasses of [ValueError]; [IntegrityError] is
    sqlalchemy's, raised by a commit that breaks the UNIQUE constraint. *)
Inductive exn : Type :=
| ValueError
| UnicodeDecodeError
| JSONDecodeError
| IntegrityError.

Definition isinstance_ValueError (e : exn) : bool :=
  match e with
  | ValueError | UnicodeDecodeError | JSONDecodeError => true
  | IntegrityError => false
  end.

Inductive Result (A : Type) : Type :=
| Ok (a : A)
| Raise (e : exn).
Arguments Ok {A} a.
Arguments Raise {A} e.

Definition rbind {A B} (r : Result A) (k : A -> Result B) : Result B :=
  match r with
  | Ok a => k a
  | Raise e => Raise e
  end.

Definition raises {A} (r : Result A) (p : exn -> bool) : Prop :=
  exists e, r = Raise e /\ p e = true.

(* ===================================================================== *)
(** ** Crypto.Util.Padding (PKCS#7) *)
(* ===================================================================== *)

Module Padding.

(** [bchr]: the byte of a number below 256. *)
Definition bchr (n : nat) : byte :=
  match Byte.of_nat n with
  | Some b => b
  | None => x00
  end.

(** [pad(data_to_pad, block_size)], style pkcs7:
    [padding_len = block_size - len(data) % block_size], then
    [data + bchr(padding_len) * padding_len]. *)
Definition pad (data_to_pad : bytes) (block_size : nat) : bytes :=
  let padding_len := block_size - length data_to_pad mod block_size in
  data_to_pad ++ repeat (bchr padding_len) padding_len.

Definition bytes_eqb (a b : bytes) : bool :=
  if list_eq_dec Byte.byte_eq_dec a b then true else false.

(** [unpad(padded_data, block_size)], style pkcs7.  Each failing test raises
    [ValueError]. *)
Definition unpad (padded_data : bytes) (block_size : nat) : Result bytes :=
  let pdata_len := length padded_data in
  if pdata_len =? 0 then Raise ValueError
  else if negb (pdata_len mod block_size =? 0) then Raise ValueError
  else
    let padding_len := Byte.to_nat (last padded_data x00) in
    if (padding_len <? 1) || (Nat.min block_size pdata_len <? padding_len)
    then Raise ValueError
    else if negb (bytes_eqb (skipn (pdata_len - padding_len) padded_data)
                            (repeat (bchr padding_len) padding_len))
    then Raise ValueError
    else Ok (firstn (pdata_len - padding_len) padded_data).

End Padding.

(* ===================================================================== *)
(** ** The third-party interface *)
(* ===================================================================== *)

(** The library calls of [database.py] and [auth.py] whose code is not part of
    the program.  [cbc_encrypt key iv data] and [cbc_decrypt key iv data] are
    AES in CBC mode on whole blocks; [json_loads] and [bytes_decode] return
    [None] where Python raises. *)
Class Lib : Type := {
  PBKDF2 : string -> bytes -> nat -> bytes;
  cbc_encrypt : bytes -> bytes -> bytes -> bytes;
  cbc_decrypt : bytes -> bytes -> bytes -> bytes;
  json_dumps : pyval -> string;
  json_loads : string -> option pyval;
  str_encode : string -> bytes;
  bytes_decode : bytes -> option string;
  bcrypt_hashpw : bytes -> bytes -> bytes;
  bcrypt_checkpw : bytes -> bytes -> bool
}.

(* ===================================================================== *)
(** ** The world: session password, table, password file, entropy *)
(* ===================================================================== *)

(** A row of the table [credentials]. *)
Record Credential : Type := mkCredential {
  id : Z;
  name : string;
  items : bytes
}.

(** [_pswd] is the field of the [Database] object, [table] the persisted rows
    in rowid order, [password_file] the content of the password file when it
    exists, [urandom] the operating system's entropy and [cursor] the number
    of bytes drawn from it so far. *)
Record World : Type := mkWorld {
  _pswd : string;
  table : list Credential;
  password_file : option bytes;
  urandom : nat -> byte;
  cursor : nat
}.

(** Computations that read and write the world and may raise.  An exception
    keeps the effects that happened before it. *)
Definition M (A : Type) : Type := World -> Result A * World.

Definition ret {A} (a : A) : M A := fun w => (Ok a, w).

Definition bind {A B} (c : M A) (k : A -> M B) : M B :=
  fun w =>
    match c w with
    | (Ok a, w') => k a w'
    | (Raise e, w') => (Raise e, w')
    end.

Definition raise {A} (e : exn) : M A := fun w => (Raise e, w).

Definition lift {A} (r : Result A) : M A := fun w => (r, w).

Definition gets {A} (f : World -> A) : M A := fun w => (Ok (f w), w).

Declare Scope monad_scope.
Delimit Scope monad_scope with monad.
Notation "x <- c ;; k" := (bind c (fun x => k))
  (at level 61, c at next level, right associativity) : monad_scope.
Notation "c ;;; k" := (bind c (fun _ => k))
  (at level 61, right associativity) : monad_scope.
Local Open Scope monad_scope.

Fixpoint mapM {A B} (f : A -> M B) (l : list A) : M (list B) :=
  match l with
  | [] => ret []
  | a :: l' => b <- f a ;; bs <- mapM f l' ;; ret (b :: bs)
  end.

(** The outcome and the final world of a computation. *)
Definition result {A} (c : M A) (w : World) : Result A := fst (c w).
Definition after {A} (c : M A) (w : World) : World := snd (c w).

(** The [n] bytes of the entropy source from position [p]. *)
Definition window (tape : nat -> byte) (p n : nat) : bytes :=
  map tape (seq p n).

(** [Crypto.Random.get_random_bytes(n)]. *)
Definition get_random_bytes (n : nat) : M bytes :=
  fun w =>
    (Ok (window (urandom w) (cursor w) n),
     mkWorld (_pswd w) (table w) (password_file w) (urandom w) (cursor w + n)).

(* ===================================================================== *)
(** ** Crypto.Cipher.AES, mode CBC *)
(* ===================================================================== *)

Module AES.

Definition block_size : nat := 16.

Record CbcMode : Type := mkCbc { key : bytes; iv : bytes }.

Definition key_size_ok (key : bytes) : bool :=
  (length key =? 16) || (length key =? 24) || (length key =? 32).

(** [AES.new(key, AES.MODE_CBC[, iv])]: the key length is checked, a missing
    IV is drawn at random, and the IV length is checked. *)
Definition new `{L : Lib} (key : bytes) (iv : option bytes) : M CbcMode :=
  if negb (key_size_ok key) then raise ValueError
  else
    iv <- match iv with
          | None => get_random_bytes block_size
          | Some iv => ret iv
          end ;;
    if negb (length iv =? block_size) then raise ValueError
    else ret (mkCbc key iv).

(** [cipher.encrypt(plaintext)]: whole blocks only. *)
Definition encrypt `{L : Lib} (cipher : CbcMode) (plaintext : bytes) : Result bytes :=
  if negb (length plaintext mod block_size =? 0) then Raise ValueError
  else Ok (cbc_encrypt (key cipher) (iv cipher) plaintext).

(** [cipher.decrypt(ciphertext)]: whole blocks only. *)
Definition decrypt `{L : Lib} (cipher : CbcMode) (ciphertext : bytes) : Result bytes :=
  if negb (length ciphertext mod block_size =? 0) then Raise ValueError
  else Ok (cbc_decrypt (key cipher) (iv cipher) ciphertext).

End AES.

(* ===================================================================== *)
(** ** The session: pending changes and commit *)
(* ===================================================================== *)

(** What a session holds between two commits. *)
Inductive pending : Type :=
| Add (new_name : string) (new_items : bytes)
| SetAttrs (cid : Z) (new_name : option string) (new_items : bytes)
| Del (cid : Z).

Definition has_name (n : string) (c : Credential) : bool := String.eqb (name c) n.
Definition has_id (i : Z) (c : Credential) : bool := Z.eqb (id c) i.

(** A fresh rowid of an INTEGER PRIMARY KEY: one more than the largest. *)
Definition next_id (tbl : list Credential) : Z :=
  (1 + fold_right Z.max 0 (map id tbl))%Z.

(** One pending change written to the table; the UNIQUE constraint on [name]
    raises [IntegrityError]. *)
Definition flush1 (tbl : list Credential) (p : pending) : Result (list Credential) :=
  match p with
  | Add n b =>
      if existsb (has_name n) tbl then Raise IntegrityError
      else Ok (tbl ++ [mkCredential (next_id tbl) n b])
  | SetAttrs cid nn b =>
      if negb (existsb (has_id cid) tbl) then Ok tbl
      else
        let clash :=
          match nn with
          | Some n => existsb (fun c => has_name n c && negb (has_id cid c)) tbl
          | None => false
          end in
        if clash then Raise IntegrityError
        else Ok (map (fun c =>
                        if has_id cid c
                        then mkCredential (id c)
                               (match nn with Some n => n | None => name c end) b
                        else c) tbl)
  | Del cid => Ok (filter (fun c => negb (has_id cid c)) tbl)
  end.

Fixpoint flush (tbl : list Credential) (ps : list pending) : Result (list Credential) :=
  match ps with
  | [] => Ok tbl
  | p :: ps' => rbind (flush1 tbl p) (fun tbl' => flush tbl' ps')
  end.

(** [session.commit()] of the pending changes [ps]: all of them or, when the
    flush raises, none (the transaction is rolled back). *)
Definition commit (ps : list pending) : M unit :=
  fun w =>
    match flush (table w) ps with
    | Ok tbl' =>
        (Ok tt, mkWorld (_pswd w) tbl' (password_file w) (urandom w) (cursor w))
    | Raise e => (Raise e, w)
    end.

(* ===================================================================== *)
(** ** safe/database.py: class Database *)
(* ===================================================================== *)

(** The argument of [update] and [delete]: [str | Credential]. *)
Inductive target : Type :=
| ByName (n : string)
| ByRef (c : Credential).

(** A [Credential] object returned by [get] and [get_all]: the row and the
    transient attribute [items_dict]. *)
Record Loaded : Type := mkLoaded {
  row : Credential;
  items_dict : pyval
}.

Module Database.
Section WithLib.
Context `{L : Lib}.

Definition _derive_key (salt : bytes) : M bytes :=
  pswd <- gets _pswd ;;
  ret (PBKDF2 pswd salt 32).

Definition _encrypt (data : pyval) : M bytes :=
  let data := match data with
              | VStr s => s
              | _ => json_dumps data
              end in
  salt <- get_random_bytes 16 ;;
  k <- _derive_key salt ;;
  cipher <- AES.new k None ;;
  ciphertext <- lift (AES.encrypt cipher
                        (Padding.pad (str_encode data) AES.block_size)) ;;
  ret (salt ++ AES.iv cipher ++ ciphertext).

Definition _decrypt (ciphertext : bytes) (json_ : bool) : M pyval :=
  let salt := firstn 16 ciphertext in
  let iv := firstn 16 (skipn 16 ciphertext) in
  k <- _derive_key salt ;;
  cipher <- AES.new k (Some iv) ;;
  padded <- lift (AES.decrypt cipher (skipn 32 ciphertext)) ;;
  unpadded <- lift (Padding.unpad padded AES.block_size) ;;
  plaintext <- match bytes_decode unpadded with
               | Some s => ret s
               | None => raise UnicodeDecodeError
               end ;;
  if json_ then
    match json_loads plaintext with
    | Some v => ret v
    | None => raise JSONDecodeError
    end
  else ret (VStr plaintext).

Definition count : M nat :=
  tbl <- gets table ;; ret (length tbl).

(** [session.query(Credential).filter_by(name=name).first()]. *)
Definition query_first (n : string) : M (option Credential) :=
  tbl <- gets table ;; ret (find (has_name n) tbl).

Definition exists_ (n : string) : M bool :=
  credential <- query_first n ;;
  ret (match credential with Some _ => true | None => false end).

Definition insert (n : string) (its : Items) : M unit :=
  blob <- _encrypt (dict_of its) ;;
  commit [Add n blob].

(** [decrypted_items = self._decrypt(credential.items, True)] and
    [credential.items_dict = decrypted_items], the body shared by [get] and
    [get_all]. *)
Definition load (credential : Credential) : M Loaded :=
  decrypted_items <- _decrypt (items credential) true ;;
  ret (mkLoaded credential decrypted_items).

Definition get (n : string) : M (option Loaded) :=
  credential <- query_first n ;;
  match credential with
  | Some c => loaded <- load c ;; ret (Some loaded)
  | None => ret None
  end.

Definition get_all : M (list Loaded) :=
  credentials <- gets table ;;
  mapM load credentials.

(** [if type(credential) is str: credential = self.get(credential)]. *)
Definition resolve (credential : target) : M (option Credential) :=
  match credential with
  | ByName n => c <- get n ;; ret (option_map row c)
  | ByRef c => ret (Some c)
  end.

Definition update (credential : target) (new_name : string) (new_items : Items)
  : M unit :=
  credential <- resolve credential ;;
  match credential with
  | Some c =>
      blob <- _encrypt (dict_of new_items) ;;
      commit [SetAttrs (id c) (Some new_name) blob]
  | None => ret tt
  end.

Definition delete (credential : target) : M unit :=
  credential <- resolve credential ;;
  match credential with
  | Some c => commit [Del (id c)]
  | None => ret tt
  end.

Definition set_pswd (new_pswd : string) : M unit :=
  fun w =>
    (Ok tt, mkWorld new_pswd (table w) (password_file w) (urandom w) (cursor w)).

(** [credential.items = self._encrypt(credential.items_dict)], the body of the
    loop of [change_pswd]: a pending write of the payload of that row. *)
Definition reencrypt (credential : Loaded) : M pending :=
  blob <- _encrypt (items_dict credential) ;;
  ret (SetAttrs (id (row credential)) None blob).

Definition change_pswd (new_pswd : string) : M unit :=
  credentials <- get_all ;;
  set_pswd new_pswd ;;;
  changes <- mapM reencrypt credentials ;;
  commit changes.

End WithLib.
End Database.

(* ===================================================================== *)
(** ** safe/auth.py and the change-password command of safe/main.py *)
(* ===================================================================== *)

Module Auth.
Section WithLib.
Context `{L : Lib}.

Definition write_password_file (content : bytes) : M unit :=
  fun w =>
    (Ok tt, mkWorld (_pswd w) (table w) (Some content) (urandom w) (cursor w)).

(** [create_pswd]: [entered] is what the prompt returned (stripped and
    confirmed); the hash of it, under a fresh bcrypt salt, replaces the
    password file. *)
Definition create_pswd (entered : string) : M string :=
  let pswd := entered in
  salt <- get_random_bytes 16 ;;
  write_password_file (bcrypt_hashpw (str_encode pswd) salt) ;;;
  ret pswd.

(** The test of [verify_user]: [bcrypt.checkpw] of the candidate against the
    password file. *)
Definition checks (candidate : string) (w : World) : bool :=
  match password_file w with
  | Some hashed_pswd => bcrypt_checkpw (str_encode candidate) hashed_pswd
  | None => false
  end.

End WithLib.
End Auth.

Module Main.
Section WithLib.
Context `{L : Lib}.

(** [change_password_command]: [entered] is the new password typed at the
    prompt of [create_pswd]. *)
Definition change_password_command (entered : string) : M unit :=
  new_pswd <- Auth.create_pswd entered ;;
  Database.change_pswd new_pswd.

End WithLib.
End Main.

(* ===================================================================== *)
(** ** The contracts of the interface *)
(* ===================================================================== *)

Section Contracts.
Context (L : Lib).

(** [PBKDF2(password, salt, dkLen)] returns [dkLen] bytes. *)
Definition kdf_length : Prop :=
  forall p salt n, length (PBKDF2 p salt n) = n.

(** CBC encryption keeps the length of whole blocks. *)
Definition cbc_length : Prop :=
  forall k iv d,
    length d mod AES.block_size = 0 -> length (cbc_encrypt k iv d) = length d.

(** CBC decryption under the key and IV of the encryption gives the
    plaintext back. *)
Definition cbc_inverse : Prop :=
  forall k iv d,
    AES.key_size_ok k = true -> length iv = AES.block_size ->
    length d mod AES.block_size = 0 ->
    cbc_decrypt k iv (cbc_encrypt k iv d) = d.

(** [s.encode().decode() == s]. *)
Definition utf8_roundtrip : Prop :=
  forall s, bytes_decode (str_encode s) = Some s.

(** [json.loads(json.dumps(d)) == d] for a dict of strings. *)
Definition json_roundtrip : Prop :=
  forall m : Items,
    NoDup (map fst m) -> json_loads (json_dumps (dict_of m)) = Some (dict_of m).

(** [bcrypt.checkpw(p, bcrypt.hashpw(p, salt))]. *)
Definition bcrypt_verifies : Prop :=
  forall p salt, bcrypt_checkpw p (bcrypt_hashpw p salt) = true.

End Contracts.

(* ===================================================================== *)
(** ** A small implementation of the interface *)
(* ===================================================================== *)

(** An implementation of [Lib] that computes inside Rocq and meets every
    contract above: the contracts are satisfiable, and the store can be run on
    concrete inputs.  The key derivation repeats password and salt, the cipher
    is a keyed XOR stream, the JSON codec writes dicts of strings with
    length prefixes.  None of it is meant to be secure. *)
Module Ref.

Definition bxor (a b : byte) : byte :=
  let '(a0, (a1, (a2, (a3, (a4, (a5, (a6, a7))))))) := Byte.to_bits a in
  let '(b0, (b1, (b2, (b3, (b4, (b5, (b6, b7))))))) := Byte.to_bits b in
  Byte.of_bits (xorb a0 b0, (xorb a1 b1, (xorb a2 b2, (xorb a3 b3,
               (xorb a4 b4, (xorb a5 b5, (xorb a6 b6, xorb a7 b7))))))).

Definition cycle (src : bytes) (i : nat) : byte :=
  nth (i mod length src) src x00.

Definition kdf (p : string) (salt : bytes) (n : nat) : bytes :=
  map (cycle (list_byte_of_string p ++ salt ++ [x01])) (seq 0 n).

Fixpoint xor_stream (ks : nat -> byte) (i : nat) (data : bytes) : bytes :=
  match data with
  | [] => []
  | b :: rest => bxor b (ks i) :: xor_stream ks (S i) rest
  end.

Definition keystream (key iv : bytes) (i : nat) : byte :=
  bxor (cycle key i) (cycle iv i).

Definition cbc (key iv data : bytes) : bytes :=
  xor_stream (keystream key iv) 0 data.

(** Length prefixes in unary: [n] times "1", then "0". *)
Fixpoint unary (n : nat) (rest : string) : string :=
  match n with
  | O => String "0" rest
  | S n' => String "1" (unary n' rest)
  end.

Fixpoint read_unary (s : string) : option (nat * string) :=
  match s with
  | EmptyString => None
  | String c rest =>
      if Ascii.eqb c "0" then Some (O, rest)
      else if Ascii.eqb c "1" then
        match read_unary rest with
        | Some (n, rest') => Some (S n, rest')
        | None => None
        end
      else None
  end.

Fixpoint take (n : nat) (s : string) : option (string * string) :=
  match n with
  | O => Some (EmptyString, s)
  | S n' =>
      match s with
      | EmptyString => None
      | String c rest =>
          match take n' rest with
          | Some (a, b) => Some (String c a, b)
          | None => None
          end
      end
  end.

Definition write_str (s rest : string) : string :=
  unary (String.length s) (s ++ rest)%string.

Definition read_str (s : string) : option (string * string) :=
  match read_unary s with
  | Some (n, rest) => take n rest
  | None => None
  end.

Fixpoint write_items (m : Items) : string :=
  match m with
  | [] => EmptyString
  | (k, v) :: m' => write_str k (write_str v (write_items m'))
  end.

Fixpoint read_items (n : nat) (s : string) : option (Items * string) :=
  match n with
  | O => Some ([], s)
  | S n' =>
      match read_str s with
      | Some (k, s1) =>
          match read_str s1 with
          | Some (v, s2) =>
              match read_items n' s2 with
              | Some (m, s3) => Some ((k, v) :: m, s3)
              | None => None
              end
          | None => None
          end
      | None => None
      end
  end.

(** The items of a dict whose values are all strings. *)
Fixpoint str_items (d : list (string * pyval)) : option Items :=
  match d with
  | [] => Some []
  | (k, VStr v) :: d' =>
      match str_items d' with
      | Some m => Some ((k, v) :: m)
      | None => None
      end
  | _ => None
  end.

Definition dumps (v : pyval) : string :=
  match v with
  | VDict d =>
      match str_items d with
      | Some m => unary (length m) (write_items m)
      | None => EmptyString
      end
  | _ => EmptyString
  end.

Definition loads (s : string) : option pyval :=
  match read_unary s with
  | Some (n, rest) =>
      match read_items n rest with
      | Some (m, EmptyString) => Some (dict_of m)
      | _ => None
      end
  | None => None
  end.

Definition hashpw (p salt : bytes) : bytes :=
  firstn 16 (salt ++ repeat x00 16) ++ p.

Definition checkpw (p hashed : bytes) : bool :=
  Padding.bytes_eqb (skipn 16 hashed) p.

#[export] Instance lib : Lib := {|
  PBKDF2 := kdf;
  cbc_encrypt := cbc;
  cbc_decrypt := cbc;
  json_dumps := dumps;
  json_loads := loads;
  str_encode := list_byte_of_string;
  bytes_decode := fun b => Some (string_of_list_byte b);
  bcrypt_hashpw := hashpw;
  bcrypt_checkpw := checkpw
|}.

(** An entropy source for the examples: position [i] gives byte [i mod 256]. *)
Definition counting_tape (i : nat) : byte := Padding.bchr (i mod 256).

(** A new vault opened with the session password [pswd]. *)
Definition fresh_world (pswd : string) : World :=
  mkWorld pswd [] None counting_tape 0.

End Ref.

(* ===================================================================== *)
(** ** Vocabulary of the statements *)
(* ===================================================================== *)

(** The three fields of a ciphertext blob, as [_decrypt] slices them:
    [blob[:16]], [blob[16:32]] and [blob[32:]]. *)
Definition salt_of (blob : bytes) : bytes := firstn 16 blob.
Definition iv_of (blob : bytes) : bytes := firstn 16 (skipn 16 blob).
Definition body_of (blob : bytes) : bytes := skipn 32 blob.

(** The bytes [_encrypt] hands to the cipher before padding. *)
Definition plaintext_of `{L : Lib} (data : pyval) : bytes :=
  str_encode (match data with
              | VStr s => s
              | _ => json_dumps data
              end).

(** The blob of an encryption under password [p] with the draws [salt] and
    [iv]: [salt + cipher.iv + ciphertext]. *)
Definition blob_of `{L : Lib} (p : string) (salt iv : bytes) (data : pyval) : bytes :=
  salt ++ iv ++
  cbc_encrypt (PBKDF2 p salt 32) iv (Padding.pad (plaintext_of data) AES.block_size).

(** What [_decrypt] makes of the bytes the cipher returns: [unpad], [decode]
    and, with the JSON flag, [json.loads]. *)
Definition parse_plain `{L : Lib} (padded : bytes) (json_ : bool) : Result pyval :=
  rbind (Padding.unpad padded AES.block_size) (fun unpadded =>
    match bytes_decode unpadded with
    | None => Raise UnicodeDecodeError
    | Some plaintext =>
        if json_ then
          match json_loads plaintext with
          | Some v => Ok v
          | None => Raise JSONDecodeError
          end
        else Ok (VStr plaintext)
    end).

(** The outcome of [_decrypt] as a function of the session password and the
    blob (lemma [decrypt_run]). *)
Definition decrypt_with `{L : Lib} (p : string) (blob : bytes) (json_ : bool)
  : Result pyval :=
  let k := PBKDF2 p (salt_of blob) 32 in
  if negb (AES.key_size_ok k) then Raise ValueError
  else if negb (length (iv_of blob) =? AES.block_size) then Raise ValueError
  else if negb (length (body_of blob) mod AES.block_size =? 0) then Raise ValueError
  else parse_plain (cbc_decrypt k (iv_of blob) (body_of blob)) json_.

(** The world after [n] more bytes of entropy were drawn. *)
Definition drawn (n : nat) (w : World) : World :=
  mkWorld (_pswd w) (table w) (password_file w) (urandom w) (cursor w + n).

(** The world with another session password. *)
Definition with_pswd (p : string) (w : World) : World :=
  mkWorld p (table w) (password_file w) (urandom w) (cursor w).

(** [n] rounded up to a multiple of [b]. *)
Definition round_up (n b : nat) : nat := (n + b - 1) / b * b.

(* ===================================================================== *)
(** ** Sessions and freshness of salts and IVs *)
(* ===================================================================== *)

(** The calls a session makes on the store and on the password file. *)
Inductive command : Type :=
| Insert (n : string) (its : Items)
| Get (n : string)
| GetAll
| Update (t : target) (new_name : string) (new_items : Items)
| Delete (t : target)
| ChangePswd (new_pswd : string)
| CreatePswd (entered : string)
| ChangePasswordCommand (entered : string).

(** The world after a call, whether it returned or raised. *)
Definition exec `{L : Lib} (c : command) (w : World) : World :=
  match c with
  | Insert n its => after (Database.insert n its) w
  | Get n => after (Database.get n) w
  | GetAll => after Database.get_all w
  | Update t nn ni => after (Database.update t nn ni) w
  | Delete t => after (Database.delete t) w
  | ChangePswd p => after (Database.change_pswd p) w
  | CreatePswd p => after (Auth.create_pswd p) w
  | ChangePasswordCommand p => after (Main.change_password_command p) w
  end.

Definition run `{L : Lib} (cs : list command) (w : World) : World :=
  fold_left (fun w c => exec c w) cs w.

(** The salt and IV a payload carries. *)
Definition salt_iv (blob : bytes) : bytes * bytes := (salt_of blob, iv_of blob).

(** Two draws of 32 bytes that do not overlap. *)
Definition apart (p q : nat) : Prop := p + 32 <= q \/ q + 32 <= p.

(** The payload of row [c] starts with the 32 bytes drawn at position [p],
    a position between [lo] and [hi - 32]. *)
Definition row_at (tape : nat -> byte) (lo hi : nat) (c : Credential) (p : nat)
  : Prop :=
  firstn 32 (items c) = window tape p 32 /\ lo <= p /\ p + 32 <= hi.

(** Every payload of the table starts with its own draw: ids are distinct,
    every row has a draw, and the draws of two rows do not overlap. *)
Definition fresh_table (tape : nat -> byte) (lo hi : nat) (tbl : list Credential)
  : Prop :=
  NoDup (map id tbl) /\
  Forall (fun c => exists p, row_at tape lo hi c p) tbl /\
  ForallOrdPairs
    (fun c c' => exists p q, row_at tape lo hi c p /\ row_at tape lo hi c' q /\
                             apart p q) tbl.

(** Pending changes whose payloads start with successive draws between [lo]
    and [hi]. *)
Inductive fresh_changes (tape : nat -> byte) : nat -> nat -> list pending -> Prop :=
| fresh_nil lo hi : lo <= hi -> fresh_changes tape lo hi []
| fresh_Add lo hi n b p ps :
    lo <= p -> firstn 32 b = window tape p 32 ->
    fresh_changes tape (p + 32) hi ps ->
    fresh_changes tape lo hi (Add n b :: ps)
| fresh_SetAttrs lo hi cid nn b p ps :
    lo <= p -> firstn 32 b = window tape p 32 ->
    fresh_changes tape (p + 32) hi ps ->
    fresh_changes tape lo hi (SetAttrs cid nn b :: ps)
| fresh_Del lo hi cid ps :
    fresh_changes tape lo hi ps ->
    fresh_changes tape lo hi (Del cid :: ps).

(** The entropy source never repeats itself between [lo] and [hi]: two draws
    of 32 bytes that do not overlap differ. *)
Definition distinct_draws (tape : nat -> byte) (lo hi : nat) : Prop :=
  forall p q, lo <= p -> lo <= q -> p + 32 <= hi -> q + 32 <= hi -> apart p q ->
              window tape p 32 <> window tape q 32.

(** The world [w'] differs from [w] at most by entropy drawn. *)
Definition same_store (w w' : World) : Prop :=
  _pswd w' = _pswd w /\ table w' = table w /\
  password_file w' = password_file w /\ urandom w' = urandom w /\
  cursor w <= cursor w'.

(** The table of [w] is fresh for the draws made since position [lo]. *)
Definition fresh_since (lo : nat) (w : World) : Prop :=
  lo <= cursor w /\ fresh_table (urandom w) lo (cursor w) (table w).

(* ===================================================================== *)
(** ** Password rotation, step by step *)
(* ===================================================================== *)

(** The outcome of [get_all] as a function of the session password and the
    table (lemma [get_all_result]): the rows in order, each with its decrypted
    items, or the exception of the first payload that does not decrypt. *)
Fixpoint load_all `{L : Lib} (p : string) (tbl : list Credential)
  : Result (list Loaded) :=
  match tbl with
  | [] => Ok []
  | c :: tbl' =>
      rbind (decrypt_with p (items c) true) (fun v =>
      rbind (load_all p tbl') (fun vs => Ok (mkLoaded c v :: vs)))
  end.







(* ===================================================================== *)
(** ** Worlds of the examples *)
(* ===================================================================== *)

(** The items of Scenario A. *)
Definition github_items : Items :=
  [("user"%string, "alice"%string); ("pass"%string, "x1"%string)].

(** A vault opened with password "pw" after
    [insert("GitHub", {"user": "alice", "pass": "x1"})], on the small
    implementation of the interface. *)
Definition github_world : World :=
  after (Database.insert (L := Ref.lib) "GitHub" github_items) (Ref.fresh_world "pw").

(** The payload of its only record. *)
Definition github_blob : bytes :=
  match table github_world with
  | c :: _ => items c
  | [] => []
  end.

(** A vault whose only record has a payload that is no ciphertext blob (two
    bytes), as after a damaged database file. *)
Definition damaged_world : World :=
  mkWorld "pw" [mkCredential 1 "GitHub" [x00; x01]] None Ref.counting_tape 0.


(* ===================================================================== *)
(** ** Invariants of the table *)
(* ===================================================================== *)

(** The two keys of the table [credentials]: the primary key [id] and the
    UNIQUE column [name]. *)
Definition unique_table (tbl : list Credential) : Prop :=
  NoDup (map id tbl) /\ NoDup (map name tbl).

(** The payload of [c] decrypts under the session password of [w]. *)
Definition readable `{L : Lib} (w : World) (c : Credential) : Prop :=
  exists v, result (Database._decrypt (items c) true) w = Ok v.

(** Another row than the one of id [cid] has the name [n]: what makes the
    flush of a renaming fail. *)
Definition name_taken (cid : Z) (n : string) (tbl : list Credential) : bool :=
  existsb (fun c => has_name n c && negb (has_id cid c)) tbl.

(** A vault with two records, "GitHub" and "GitLab", opened with password
    "pw", on the small implementation of the interface. *)
Definition two_records : World :=
  run (L := Ref.lib)
    [Insert "GitHub" github_items; Insert "GitLab" github_items]
    (Ref.fresh_world "pw").

(* ===================================================================== *)
(** ** Prompts: [str.strip] and the questions of InquirerPy *)
(* ===================================================================== *)

Module Str.

(** [str.isspace] of a character, for the code points below 256 that a
    [string] of this development holds: U+0009 to U+000D, U+001C to U+0020,
    U+0085 and U+00A0. *)
Definition isspace (c : ascii) : bool :=
  let n := nat_of_ascii c in
  ((9 <=? n) && (n <=? 13)) || ((28 <=? n) && (n <=? 32))
  || (n =? 133) || (n =? 160).

Fixpoint lstrip (s : string) : string :=
  match s with
  | EmptyString => EmptyString
  | String c s' => if isspace c then lstrip s' else s
  end.

Fixpoint rstrip (s : string) : string :=
  match s with
  | EmptyString => EmptyString
  | String c s' =>
      match rstrip s' with
      | EmptyString => if isspace c then EmptyString else String c EmptyString
      | r => String c r
      end
  end.

(** [s.strip()]. *)
Definition strip (s : string) : string := rstrip (lstrip s).

(** [not s] of a string: it is empty. *)
Definition is_empty (s : string) : bool :=
  match s with
  | EmptyString => true
  | String _ _ => false
  end.

End Str.

(** How a command ends: it returns, it raises one of the exceptions of the
    store, it leaves through [sys.exit], or the user presses Ctrl-C at a
    prompt. *)
Inductive flow (A : Type) : Type :=
| Done (a : A)
| Failed (e : exn)
| SystemExit (code : Z)
| KeyboardInterrupt.
Arguments Done {A} a.
Arguments Failed {A} e.
Arguments SystemExit {A} code.
Arguments KeyboardInterrupt {A}.

Definition Cmd (A : Type) : Type := World -> flow A * World.

Definition of_result {A} (r : Result A * World) : flow A * World :=
  match r with
  | (Ok a, w) => (Done a, w)
  | (Raise e, w) => (Failed e, w)
  end.

(** [inquirer.text(validate=...).execute()] and [inquirer.secret(...)]: the
    user types the texts of [script] one after the other; a text the validator
    rejects leaves the question open, the first text it accepts is returned,
    with what is left of the script.  [None]: the script ends before a text
    is accepted (the user pressed Ctrl-C). *)
Fixpoint execute (validate : string -> bool) (script : list string)
  : option (string * list string) :=
  match script with
  | [] => None
  | text :: script' =>
      if validate text then Some (text, script') else execute validate script'
  end.

(* ===================================================================== *)
(** ** safe/auth.py with its prompts, and [cli] of safe/main.py *)
(* ===================================================================== *)

Module Login.
Section WithLib.
Context `{L : Lib}.

(** [EmptyInputValidator]: the text typed is not empty. *)
Definition EmptyInputValidator (text : string) : bool := negb (Str.is_empty text).

(** [create_pswd]: the question for the password, stripped; the question for
    its confirmation, [validate=lambda text: text == pswd]; then the hash is
    written ([Auth.create_pswd]). *)
Definition create_pswd (script : list string) : Cmd string :=
  fun w =>
    match execute EmptyInputValidator script with
    | None => (KeyboardInterrupt, w)
    | Some (text, script') =>
        let pswd := Str.strip text in
        match execute (fun text => String.eqb text pswd) script' with
        | None => (KeyboardInterrupt, w)
        | Some _ => of_result (Auth.create_pswd pswd w)
        end
    end.

(** [verify_user]: the question has no validator; the password file is read
    (the caller has tested that it is there), a password that does not check
    ends the program with [sys.exit(1)]. *)
Definition verify_user (hashed_pswd : bytes) (script : list string) : Cmd string :=
  fun w =>
    match execute (fun _ => true) script with
    | None => (KeyboardInterrupt, w)
    | Some (text, _) =>
        let pswd := Str.strip text in
        if bcrypt_checkpw (str_encode pswd) hashed_pswd then (Done pswd, w)
        else (SystemExit 1, w)
    end.

(** [authenticate_user]: [os.path.isfile] of the password file decides. *)
Definition authenticate_user (script : list string) : Cmd string :=
  fun w =>
    match password_file w with
    | None => create_pswd script w
    | Some hashed_pswd => verify_user hashed_pswd script w
    end.

(** [cli]: [pswd = authenticate_user()], then [Database(pswd)], whose
    constructor keeps the password for the session. *)
Definition cli (script : list string) : Cmd unit :=
  fun w =>
    match authenticate_user script w with
    | (Done pswd, w') => of_result (Database.set_pswd pswd w')
    | (Failed e, w') => (Failed e, w')
    | (SystemExit code, w') => (SystemExit code, w')
    | (KeyboardInterrupt, w') => (KeyboardInterrupt, w')
    end.

End WithLib.
End Login.

(* ===================================================================== *)
(** ** safe/utils.py: the validators and [print_credentials] *)
(* ===================================================================== *)

Module Utils.

(** What [validate] of a prompt_toolkit [Validator] does: it returns, or it
    raises [ValidationError] with a message. *)
Inductive validation : Type :=
| Valid
| ValidationError (message : string).

Definition accepts (v : validation) : bool :=
  match v with
  | Valid => true
  | ValidationError _ => false
  end.

(** [key in items] of a dict. *)
Definition has_key (items : Items) (key : string) : bool :=
  existsb (fun kv => String.eqb (fst kv) key) items.

(** [items[key] = value] of a dict: the value of a key that is there is
    replaced in place, a new key goes to the end. *)
Fixpoint setitem (items : Items) (key value : string) : Items :=
  match items with
  | [] => [(key, value)]
  | (k, v) :: items' =>
      if String.eqb k key then (k, value) :: items'
      else (k, v) :: setitem items' key value
  end.

Module CredentialNameValidator.

Definition validate (validator_cb : string -> M bool) (allow : option string)
  (document_text : string) : M validation :=
  let text := Str.strip document_text in
  if Str.is_empty text then ret (ValidationError "The prompt is empty.")
  else if negb (match allow with
                | Some a => String.eqb text a
                | None => false
                end)
  then
    taken <- validator_cb text ;;
    if taken
    then ret (ValidationError
                (String.append text " already exists in the database."))
    else ret Valid
  else ret Valid.

End CredentialNameValidator.

Module ItemKeyValidator.

Definition validate (items : Items) (allow_empty : bool) (document_text : string)
  : validation :=
  let text := Str.strip document_text in
  if has_key items text
  then ValidationError (String.append text " is already in-use.")
  else if Str.is_empty text && (length items =? 0) && negb allow_empty
  then ValidationError "Must add atleast 1 key-value pair."
  else Valid.

End ItemKeyValidator.

(** A validator that reads the store, at a prompt opened in world [w]. *)
Definition accepts_in (w : World) (v : M validation) : bool :=
  match result v w with
  | Ok r => accepts r
  | Raise _ => false
  end.

Section Printing.

(** [click.style(text, fg='blue')]. *)
Variable style : string -> string.

Definition newline : string := String (ascii_of_nat 10) EmptyString.

(** [n * ' ']. *)
Fixpoint spaces (n : nat) : string :=
  match n with
  | 0 => EmptyString
  | S n' => String " "%char (spaces n')
  end.

(** [len(max(items, key=len))]: [max] of an empty dict raises [ValueError]. *)
Definition max_key_length (items : Items) : Result nat :=
  match items with
  | [] => Raise ValueError
  | _ => Ok (fold_right (fun kv m => Nat.max (String.length (fst kv)) m) 0 items)
  end.

(** The key, padded to the longest key: what stands left of [" = "]. *)
Definition key_column (max_key_length : nat) (key : string) : string :=
  String.append "  "
    (String.append key (spaces (max_key_length - String.length key))).

(** One line of a credential:
    ['  {}{} = {}\n'.format(key, padding, click.style(value or '[empty]'))]. *)
Definition item_line (max_key_length : nat) (kv : string * string) : string :=
  String.append (key_column max_key_length (fst kv))
    (String.append " = "
       (String.append
          (style (if Str.is_empty (snd kv) then "[empty]"%string else snd kv))
          newline)).

(** [cred_str] of one credential: the name in brackets, then its lines. *)
Definition cred_str (credential : string * Items) : Result string :=
  rbind (max_key_length (snd credential)) (fun m =>
    Ok (String.append "["
          (String.append (fst credential)
             (String.append "]"
                (String.append newline
                   (String.concat "" (map (item_line m) (snd credential)))))))).

(** The loop of [print_credentials]; [last_name] is
    [credentials[-1]['name']]. *)
Fixpoint print_loop (last_name end_ : string) (credentials : list (string * Items))
  (creds_str : string) : Result string :=
  match credentials with
  | [] => Ok creds_str
  | credential :: credentials' =>
      rbind (cred_str credential) (fun s =>
        print_loop last_name end_ credentials'
          (String.append creds_str
             (String.append s
                (if negb (String.eqb (fst credential) last_name)
                 then newline else end_))))
  end.

(** [print_credentials(credentials, start=..., end=...)]: the text that is
    echoed, or the exception. *)
Definition print_credentials (credentials : list (string * Items))
  (start end_ : string) : Result string :=
  print_loop (last (map fst credentials) EmptyString) end_ credentials start.

End Printing.

End Utils.

(* ===================================================================== *)
(** ** safe/main.py: the [add] command *)
(* ===================================================================== *)

Module Commands.
Section WithLib.
Context `{L : Lib}.
Variable style : string -> string.

(** The loop of [add_command] that asks for keys and values, which is also
    the last loop of [update_command], there started with the items already
    collected.  A text the key validator rejects leaves the question open; an
    empty key ends the loop; the value has no validator.  [None]: the script
    ends first. *)
Fixpoint ask_items (items : Items) (script : list string)
  : option (Items * list string) :=
  match script with
  | [] => None
  | text :: script' =>
      match Utils.ItemKeyValidator.validate items false text with
      | Utils.ValidationError _ => ask_items items script'
      | Utils.Valid =>
          let key := Str.strip text in
          if Str.is_empty key then Some (items, script')
          else
            match script' with
            | [] => None
            | text' :: script'' =>
                let value := Str.strip text' in
                ask_items (Utils.setitem items key value) script''
            end
      end
  end.


End WithLib.
End Commands.

(** Items as the prompts of the commands leave them: the keys are distinct,
    not empty and stripped, the values are stripped. *)
Definition tidy (items : Items) : Prop :=
  NoDup (map fst items) /\
  Forall (fun kv => Str.is_empty (fst kv) = false /\
                    Str.strip (fst kv) = fst kv /\
                    Str.strip (snd kv) = snd kv) items.

(* ===================================================================== *)
(** ** Padding lemmas *)
(* ===================================================================== *)

Lemma to_nat_bchr (n : nat) : n <= 255 -> Byte.to_nat (Padding.bchr n) = n.
Proof.
  intros Hn. unfold Padding.bchr.
  destruct (Byte.of_nat n) as [b|] eqn:E.
  - now apply Byte.to_of_nat.
  - apply Byte.of_nat_None_iff in E. lia.
Qed.

Lemma bytes_eqb_refl (a : bytes) : Padding.bytes_eqb a a = true.
Proof.
  unfold Padding.bytes_eqb. destruct (list_eq_dec Byte.byte_eq_dec a a); congruence.
Qed.

Lemma bytes_eqb_eq (a b : bytes) : Padding.bytes_eqb a b = true <-> a = b.
Proof.
  unfold Padding.bytes_eqb.
  destruct (list_eq_dec Byte.byte_eq_dec a b); split; congruence.
Qed.

Lemma last_app_repeat {A} (l : list A) (b d : A) (n : nat) :
  0 < n -> last (l ++ repeat b n) d = b.
Proof.
  intros Hn. destruct n as [|n]; [lia|].
  replace (repeat b (S n)) with (repeat b n ++ [b]).
  - now rewrite app_assoc, last_last.
  - change [b] with (repeat b 1). rewrite <- repeat_app. f_equal. lia.
Qed.

(** The padding length of a [block_size]-padding: between 1 and [block_size]. *)
Lemma padding_len_range (len bs : nat) :
  0 < bs -> 1 <= bs - len mod bs <= bs.
Proof.
  intros Hbs. pose proof (Nat.mod_upper_bound len bs). lia.
Qed.

Lemma pad_length (d : bytes) (bs : nat) :
  0 < bs -> length (Padding.pad d bs) = bs * (length d / bs + 1).
Proof.
  intros Hbs. unfold Padding.pad. rewrite length_app, repeat_length.
  pose proof (Nat.div_mod_eq (length d) bs).
  pose proof (Nat.mod_upper_bound (length d) bs). nia.
Qed.

Lemma pad_length_mod (d : bytes) (bs : nat) :
  0 < bs -> length (Padding.pad d bs) mod bs = 0.
Proof.
  intros Hbs. rewrite pad_length by assumption.
  rewrite Nat.mul_comm. apply Nat.Div0.mod_mul.
Qed.

Lemma unpad_pad (d : bytes) (bs : nat) :
  0 < bs -> bs <= 255 -> Padding.unpad (Padding.pad d bs) bs = Ok d.
Proof.
  intros Hbs Hle.
  pose proof (padding_len_range (length d) bs Hbs) as Hr.
  pose proof (pad_length_mod d bs Hbs) as Hmod.
  unfold Padding.unpad.
  rewrite Hmod. simpl negb.
  unfold Padding.pad in *.
  set (n := bs - length d mod bs) in *.
  rewrite length_app, repeat_length.
  destruct (length d + n =? 0) eqn:E0; [apply Nat.eqb_eq in E0; lia|].
  rewrite last_app_repeat by lia.
  rewrite to_nat_bchr by lia.
  replace (n <? 1) with false by (symmetry; apply Nat.ltb_ge; lia).
  replace (Nat.min bs (length d + n) <? n) with false
    by (symmetry; apply Nat.ltb_ge; lia).
  simpl orb. cbv iota.
  replace (length d + n - n) with (length d) by lia.
  rewrite skipn_app, skipn_all, Nat.sub_diag. simpl skipn.
  rewrite bytes_eqb_refl. simpl negb. cbv iota.
  rewrite firstn_app, firstn_all, Nat.sub_diag. simpl firstn.
  now rewrite app_nil_r.
Qed.

(* ===================================================================== *)
(** ** The small implementation meets the contracts *)
(* ===================================================================== *)

Lemma bxor_involutive (a k : byte) : Ref.bxor (Ref.bxor a k) k = a.
Proof.
  unfold Ref.bxor.
  rewrite <- (Byte.of_bits_to_bits a) at 2.
  destruct (Byte.to_bits a) as (a0 & a1 & a2 & a3 & a4 & a5 & a6 & a7).
  destruct (Byte.to_bits k) as (k0 & k1 & k2 & k3 & k4 & k5 & k6 & k7).
  rewrite Byte.to_bits_of_bits.
  now rewrite !xorb_assoc, !xorb_nilpotent, !xorb_false_r.
Qed.

Lemma xor_stream_involutive (ks : nat -> byte) (d : bytes) :
  forall i, Ref.xor_stream ks i (Ref.xor_stream ks i d) = d.
Proof.
  induction d as [|b d IH]; intros i; simpl; [reflexivity|].
  now rewrite bxor_involutive, IH.
Qed.

Lemma xor_stream_length (ks : nat -> byte) (d : bytes) :
  forall i, length (Ref.xor_stream ks i d) = length d.
Proof.
  induction d as [|b d IH]; intros i; simpl; [reflexivity|].
  now rewrite IH.
Qed.

Lemma ref_kdf_length : kdf_length Ref.lib.
Proof.
  intros p salt n. simpl. unfold Ref.kdf. now rewrite length_map, length_seq.
Qed.

Lemma ref_cbc_length : cbc_length Ref.lib.
Proof. intros k iv d _. apply xor_stream_length. Qed.

Lemma ref_cbc_inverse : cbc_inverse Ref.lib.
Proof. intros k iv d _ _ _. apply xor_stream_involutive. Qed.

Lemma ref_utf8_roundtrip : utf8_roundtrip Ref.lib.
Proof. intros s. simpl. now rewrite string_of_list_byte_of_string. Qed.

Lemma read_unary_unary (n : nat) (rest : string) :
  Ref.read_unary (Ref.unary n rest) = Some (n, rest).
Proof.
  induction n as [|n IH]; simpl; [reflexivity|]. now rewrite IH.
Qed.

Lemma take_append (s rest : string) :
  Ref.take (String.length s) (s ++ rest)%string = Some (s, rest).
Proof.
  induction s as [|c s IH]; simpl; [reflexivity|]. now rewrite IH.
Qed.

Lemma read_write_str (s rest : string) :
  Ref.read_str (Ref.write_str s rest) = Some (s, rest).
Proof.
  unfold Ref.read_str, Ref.write_str.
  rewrite read_unary_unary. apply take_append.
Qed.

Lemma read_write_items (m : Items) :
  Ref.read_items (length m) (Ref.write_items m) = Some (m, EmptyString).
Proof.
  induction m as [|[k v] m IH]; simpl; [reflexivity|].
  now rewrite !read_write_str, IH.
Qed.

Lemma str_items_dict_of (m : Items) :
  Ref.str_items (map (fun kv => (fst kv, VStr (snd kv))) m) = Some m.
Proof.
  induction m as [|[k v] m IH]; simpl; [reflexivity|]. now rewrite IH.
Qed.

Lemma ref_json_roundtrip : json_roundtrip Ref.lib.
Proof.
  intros m _. simpl. unfold Ref.loads, Ref.dumps, dict_of.
  rewrite str_items_dict_of, read_unary_unary.
  change (map (fun kv => (fst kv, VStr (snd kv))) m) with
    (map (fun kv : string * string => (fst kv, VStr (snd kv))) m).
  now rewrite read_write_items.
Qed.

Lemma ref_bcrypt_verifies : bcrypt_verifies Ref.lib.
Proof.
  intros p salt. simpl. unfold Ref.checkpw, Ref.hashpw.
  assert (Hlen : length (firstn 16 (salt ++ repeat x00 16)) = 16).
  { rewrite length_firstn, length_app, repeat_length. lia. }
  rewrite skipn_app, Hlen, Nat.sub_diag, skipn_all2 by lia.
  simpl. apply bytes_eqb_refl.
Qed.

(* ===================================================================== *)
(** ** Slices and entropy windows *)
(* ===================================================================== *)

Lemma window_length (tape : nat -> byte) (p n : nat) :
  length (window tape p n) = n.
Proof. unfold window. now rewrite length_map, length_seq. Qed.

Lemma window_app (tape : nat -> byte) (p n m : nat) :
  window tape p (n + m) = window tape p n ++ window tape (p + n) m.
Proof. unfold window. now rewrite seq_app, map_app. Qed.

Lemma firstn_add {A} (n m : nat) (l : list A) :
  firstn (n + m) l = firstn n l ++ firstn m (skipn n l).
Proof.
  revert l. induction n as [|n IH]; intros l; simpl; [reflexivity|].
  destruct l as [|a l]; simpl.
  - now rewrite firstn_nil.
  - now rewrite IH.
Qed.

Lemma salt_of_blob (salt iv ct : bytes) :
  length salt = 16 -> salt_of (salt ++ iv ++ ct) = salt.
Proof.
  intros Hs. unfold salt_of.
  rewrite firstn_app, Hs, Nat.sub_diag, firstn_O, app_nil_r.
  apply firstn_all2. lia.
Qed.

Lemma iv_of_blob (salt iv ct : bytes) :
  length salt = 16 -> length iv = 16 -> iv_of (salt ++ iv ++ ct) = iv.
Proof.
  intros Hs Hi. unfold iv_of.
  rewrite skipn_app, Hs, Nat.sub_diag, skipn_O.
  rewrite (skipn_all2 salt) by lia. rewrite app_nil_l.
  rewrite firstn_app, Hi, Nat.sub_diag, firstn_O, app_nil_r.
  apply firstn_all2. lia.
Qed.

Lemma body_of_blob (salt iv ct : bytes) :
  length salt = 16 -> length iv = 16 -> body_of (salt ++ iv ++ ct) = ct.
Proof.
  intros Hs Hi. unfold body_of.
  rewrite app_assoc, skipn_app, length_app, Hs, Hi.
  rewrite skipn_all2 by (rewrite length_app; lia).
  reflexivity.
Qed.

Lemma prefix_of_blob (blob : bytes) :
  firstn 32 blob = salt_of blob ++ iv_of blob.
Proof. apply (firstn_add 16 16). Qed.

(* ===================================================================== *)
(** ** What [_encrypt] and [_decrypt] compute *)
(* ===================================================================== *)

Ltac unfold_monad :=
  unfold bind, ret, raise, lift, gets, get_random_bytes, commit in *.

Section Cipher.
Context (L : Lib).

Lemma key_size_ok_32 (p : string) (salt : bytes) :
  kdf_length L -> AES.key_size_ok (PBKDF2 p salt 32) = true.
Proof. intros Hkdf. unfold AES.key_size_ok. now rewrite Hkdf. Qed.

(** [_encrypt] draws the salt, then the IV, and returns the blob; nothing
    else of the world changes. *)
Lemma encrypt_run (data : pyval) (w : World) :
  kdf_length L ->
  Database._encrypt data w =
    (Ok (blob_of (_pswd w)
           (window (urandom w) (cursor w) 16)
           (window (urandom w) (cursor w + 16) 16) data),
     drawn 32 w).
Proof.
  intros Hkdf. unfold Database._encrypt, Database._derive_key, AES.new, AES.encrypt.
  unfold_monad. cbn [_pswd table password_file urandom cursor].
  rewrite key_size_ok_32 by assumption. cbn [negb].
  cbn [_pswd table password_file urandom cursor].
  unfold AES.block_size. rewrite window_length, Nat.eqb_refl. cbn [negb].
  cbn [AES.key AES.iv].
  rewrite (pad_length_mod _ 16) by lia. cbn [Nat.eqb negb].
  unfold blob_of, plaintext_of, drawn, AES.block_size.
  replace (cursor w + 16 + 16) with (cursor w + 32) by lia. reflexivity.
Qed.

(** [_decrypt] reads the session password and changes nothing. *)
Lemma decrypt_run (blob : bytes) (json_ : bool) (w : World) :
  Database._decrypt blob json_ w = (decrypt_with (_pswd w) blob json_, w).
Proof.
  unfold Database._decrypt, Database._derive_key, AES.new, AES.decrypt, decrypt_with.
  unfold salt_of, iv_of, body_of, parse_plain.
  unfold_monad. cbn [_pswd].
  destruct (AES.key_size_ok _); cbn [negb]; [|reflexivity].
  destruct (length (firstn 16 (skipn 16 blob)) =? AES.block_size);
    cbn [negb AES.key AES.iv]; [|reflexivity].
  destruct (length (skipn 32 blob) mod AES.block_size =? 0);
    cbn [negb]; [|reflexivity].
  destruct (Padding.unpad _ _) as [u|e]; cbn [rbind]; [|reflexivity].
  destruct (bytes_decode u) as [s|]; [|reflexivity].
  destruct json_; [|reflexivity].
  destruct (json_loads s); reflexivity.
Qed.

Lemma unpad_error (padded : bytes) (bs : nat) (e : exn) :
  Padding.unpad padded bs = Raise e -> e = ValueError.
Proof.
  unfold Padding.unpad.
  repeat match goal with
         | |- context [if ?c then _ else _] => destruct c
         end; congruence.
Qed.

(** Every failure of the parsing stage is a [ValueError]. *)
Lemma parse_plain_error (padded : bytes) (json_ : bool) (e : exn) :
  parse_plain padded json_ = Raise e -> isinstance_ValueError e = true.
Proof.
  unfold parse_plain.
  destruct (Padding.unpad padded AES.block_size) as [u|e'] eqn:Eu; cbn [rbind].
  - destruct (bytes_decode u) as [s|]; [|intros [= <-]; reflexivity].
    destruct json_; [|discriminate].
    destruct (json_loads s); [discriminate|intros [= <-]; reflexivity].
  - intros [= <-]. now rewrite (unpad_error _ _ _ Eu).
Qed.

(** Every failure of a decryption is a [ValueError]. *)
Lemma decrypt_with_error (p : string) (blob : bytes) (json_ : bool) (e : exn) :
  decrypt_with p blob json_ = Raise e -> isinstance_ValueError e = true.
Proof.
  unfold decrypt_with.
  repeat match goal with
         | |- context [if negb ?c then _ else _] => destruct c; cbn [negb]
         end; try (intros [= <-]; reflexivity).
  apply parse_plain_error.
Qed.

(** A blob of fewer than 32 bytes has no whole IV. *)
Lemma decrypt_with_short (p : string) (blob : bytes) (json_ : bool) :
  length blob < 32 -> decrypt_with p blob json_ = Raise ValueError.
Proof.
  intros Hlen. unfold decrypt_with.
  destruct (AES.key_size_ok _); cbn [negb]; [|reflexivity].
  replace (length (iv_of blob) =? AES.block_size) with false; [reflexivity|].
  symmetry. apply Nat.eqb_neq. unfold iv_of, AES.block_size.
  rewrite length_firstn, length_skipn. lia.
Qed.

(** Decryption of a blob made under the same password, for a payload the
    codecs give back. *)
Lemma decrypt_blob_of (p : string) (salt iv : bytes) (data : pyval) (json_ : bool) :
  kdf_length L -> cbc_length L -> cbc_inverse L ->
  length salt = 16 -> length iv = 16 ->
  decrypt_with p (blob_of p salt iv data) json_ =
    match bytes_decode (plaintext_of data) with
    | None => Raise UnicodeDecodeError
    | Some plaintext =>
        if json_ then
          match json_loads plaintext with
          | Some v => Ok v
          | None => Raise JSONDecodeError
          end
        else Ok (VStr plaintext)
    end.
Proof.
  intros Hkdf Hlen Hinv Hs Hi. unfold decrypt_with, blob_of.
  rewrite salt_of_blob, iv_of_blob, body_of_blob by assumption.
  rewrite key_size_ok_32 by assumption. cbn [negb].
  unfold AES.block_size. rewrite Hi. cbn [Nat.eqb negb].
  rewrite Hlen by (apply pad_length_mod; unfold AES.block_size; lia).
  rewrite pad_length_mod by lia. cbn [Nat.eqb negb].
  rewrite Hinv.
  - unfold parse_plain, AES.block_size. now rewrite unpad_pad by lia.
  - now apply key_size_ok_32.
  - exact Hi.
  - unfold AES.block_size. apply pad_length_mod. lia.
Qed.

Lemma plaintext_of_dict (m : Items) :
  utf8_roundtrip L ->
  bytes_decode (plaintext_of (dict_of m)) = Some (json_dumps (dict_of m)).
Proof. intros Hutf. unfold plaintext_of, dict_of. apply Hutf. Qed.

End Cipher.

(* ===================================================================== *)
(** ** The record cipher: round trip, failures, layout *)
(* ===================================================================== *)

Lemma github_items_nodup : NoDup (map fst github_items).
Proof.
  repeat constructor; simpl; intuition discriminate.
Defined.



(** C4.  Failures of [_decrypt], for every session password and every blob:
    the world is never changed; every exception is a [ValueError] or one of its
    subclasses, whichever test failed; a blob shorter than 32 bytes raises;
    invalid padding of the bytes the cipher returns raises; unpadded bytes that
    do not decode, or that decode to text [json.loads] rejects, raise.  For a
    blob made by [_encrypt] under another password, the outcome is what
    unpadding, decoding and parsing make of the bytes the cipher returns under
    the wrong key, and nothing else: an invalid padding there raises the same
    [ValueError] as corrupted data. *)
Theorem decrypt_failures (L : Lib) (w : World) (blob : bytes) (json_ : bool) :
  let k := PBKDF2 (_pswd w) (salt_of blob) 32 in
  let padded := cbc_decrypt k (iv_of blob) (body_of blob) in
  let r := result (Database._decrypt blob json_) w in
  after (Database._decrypt blob json_) w = w /\
  (forall e, r = Raise e -> isinstance_ValueError e = true) /\
  (length blob < 32 -> r = Raise ValueError) /\
  (forall e, Padding.unpad padded AES.block_size = Raise e ->
             raises r isinstance_ValueError) /\
  (forall u, Padding.unpad padded AES.block_size = Ok u ->
             bytes_decode u = None -> raises r isinstance_ValueError) /\
  (forall u s, Padding.unpad padded AES.block_size = Ok u ->
               bytes_decode u = Some s -> json_ = true -> json_loads s = None ->
               raises r isinstance_ValueError) /\
  (forall w0 data,
      kdf_length L -> cbc_length L ->
      result (Database._encrypt data) w0 = Ok blob ->
      r = parse_plain padded json_ /\
      (forall e, Padding.unpad padded AES.block_size = Raise e -> r = Raise ValueError)).
Proof.
  intros k padded r. subst r. unfold result, after.
  rewrite decrypt_run. cbn [fst snd].
  assert (Hpar : forall e, parse_plain padded json_ = Raise e ->
                           raises (decrypt_with (_pswd w) blob json_)
                             isinstance_ValueError).
  { intros e He. unfold decrypt_with. fold k. fold padded.
    repeat match goal with
           | |- context [if negb ?c then _ else _] => destruct c; cbn [negb]
           end;
      try (exists ValueError; split; reflexivity).
    exists e. split; [assumption|]. eapply parse_plain_error; eassumption. }
  split; [reflexivity|].
  split; [apply decrypt_with_error|].
  split; [apply decrypt_with_short|].
  split.
  { intros e He. apply (Hpar e). unfold parse_plain. now rewrite He. }
  split.
  { intros u Hu Hd. apply (Hpar UnicodeDecodeError).
    unfold parse_plain. rewrite Hu. cbn [rbind]. now rewrite Hd. }
  split.
  { intros u s Hu Hd -> Hj. apply (Hpar JSONDecodeError).
    unfold parse_plain. rewrite Hu. cbn [rbind]. now rewrite Hd, Hj. }
  intros w0 data Hkdf Hlen Henc.
  unfold result in Henc. rewrite encrypt_run in Henc by assumption.
  cbn [fst] in Henc. injection Henc as Hblob.
  assert (Hrun : decrypt_with (_pswd w) blob json_ = parse_plain padded json_).
  { unfold decrypt_with, padded, k.
    rewrite key_size_ok_32 by assumption. cbn [negb].
    rewrite <- Hblob. unfold blob_of.
    rewrite iv_of_blob, body_of_blob by apply window_length.
    unfold AES.block_size.
    rewrite window_length.
    rewrite Hlen by (apply pad_length_mod; unfold AES.block_size; lia).
    rewrite pad_length_mod by lia. reflexivity. }
  split; [exact Hrun|].
  intros e He. rewrite Hrun. unfold parse_plain. rewrite He. cbn [rbind].
  now rewrite (unpad_error _ _ _ He).
Qed.

Lemma decrypt_failures_witness :
  result (Database._decrypt (L := Ref.lib) (firstn 31 github_blob) true) github_world
    = Raise ValueError /\
  result (Database._decrypt (L := Ref.lib) github_blob true)
    (with_pswd "wrong-horse" github_world) = Raise ValueError /\
  raises (result (Database._decrypt (L := Ref.lib) github_blob true)
            (with_pswd "px" github_world)) isinstance_ValueError.
Proof.
  split; [|split].
  - apply (decrypt_failures Ref.lib github_world (firstn 31 github_blob) true).
    vm_compute. lia.
  - destruct (decrypt_failures Ref.lib (with_pswd "wrong-horse" github_world)
                github_blob true) as (_ & _ & _ & _ & _ & _ & Hwrong).
    destruct (Hwrong (Ref.fresh_world "pw") (dict_of github_items)
                ref_kdf_length ref_cbc_length eq_refl) as [_ Hpad].
    apply (Hpad ValueError). vm_compute. reflexivity.
  - destruct (decrypt_failures Ref.lib (with_pswd "px" github_world)
                github_blob true) as (_ & _ & _ & _ & _ & Hjson & _).
    eapply Hjson; vm_compute; reflexivity.
Defined.

(** [round_up n b] is the least multiple of [b] that is at least [n]. *)
Lemma round_up_spec (n b : nat) :
  0 < b ->
  n <= round_up n b < n + b /\ round_up n b mod b = 0.
Proof.
  intros Hb. unfold round_up.
  pose proof (Nat.div_mod_eq (n + b - 1) b) as Hd.
  pose proof (Nat.mod_upper_bound (n + b - 1) b) as Hm.
  split; [nia|]. apply Nat.Div0.mod_mul.
Qed.

(** C5 (as amended).  Layout of the blob [_encrypt] returns, for every session
    password, payload and state of the entropy source: bytes [0:16] are the
    salt, the 16 bytes drawn first and used to derive the key; bytes [16:32]
    are the IV, the 16 bytes drawn next; bytes [32:] are the cipher output for
    the padded plaintext, and their number is the next multiple of the block
    size strictly above the plaintext length, [16 * (len / 16 + 1)], that is
    [len + 1] rounded up to the block size: a plaintext of whole blocks gets
    one more block. *)
Theorem blob_layout (L : Lib) (w : World) (data : pyval) :
  kdf_length L -> cbc_length L ->
  exists blob,
    result (Database._encrypt data) w = Ok blob /\
    salt_of blob = window (urandom w) (cursor w) 16 /\
    iv_of blob = window (urandom w) (cursor w + 16) 16 /\
    body_of blob =
      cbc_encrypt (PBKDF2 (_pswd w) (salt_of blob) 32) (iv_of blob)
        (Padding.pad (plaintext_of data) AES.block_size) /\
    length (body_of blob) =
      AES.block_size * (length (plaintext_of data) / AES.block_size + 1) /\
    length (body_of blob) =
      round_up (length (plaintext_of data) + 1) AES.block_size /\
    length (plaintext_of data) < length (body_of blob)
      <= length (plaintext_of data) + AES.block_size.
Proof.
  intros Hkdf Hlen. eexists. split.
  - unfold result. rewrite encrypt_run by assumption. reflexivity.
  - unfold blob_of.
    rewrite salt_of_blob, iv_of_blob, body_of_blob by apply window_length.
    repeat split; try reflexivity.
    + rewrite Hlen by (apply pad_length_mod; unfold AES.block_size; lia).
      apply pad_length. unfold AES.block_size. lia.
    + rewrite Hlen by (apply pad_length_mod; unfold AES.block_size; lia).
      rewrite pad_length by (unfold AES.block_size; lia).
      unfold round_up, AES.block_size.
      replace (length (plaintext_of data) + 1 + 16 - 1)
        with (length (plaintext_of data) + 1 * 16) by lia.
      rewrite Nat.div_add by lia. lia.
    + rewrite Hlen by (apply pad_length_mod; unfold AES.block_size; lia).
      unfold Padding.pad. rewrite length_app, repeat_length.
      pose proof (padding_len_range (length (plaintext_of data)) AES.block_size).
      unfold AES.block_size in *. lia.
    + rewrite Hlen by (apply pad_length_mod; unfold AES.block_size; lia).
      unfold Padding.pad. rewrite length_app, repeat_length.
      pose proof (padding_len_range (length (plaintext_of data)) AES.block_size).
      unfold AES.block_size in *. lia.
Qed.

Lemma blob_layout_witness :
  exists blob,
    result (Database._encrypt (L := Ref.lib) (dict_of github_items))
      (Ref.fresh_world "pw") = Ok blob /\
    salt_of blob = window Ref.counting_tape 0 16 /\
    iv_of blob = window Ref.counting_tape 16 16 /\
    length (body_of blob) = 48.
Proof.
  destruct (blob_layout Ref.lib (Ref.fresh_world "pw") (dict_of github_items)
              ref_kdf_length ref_cbc_length)
    as (blob & Hrun & Hsalt & Hiv & _ & Hlen & _ & _).
  exists blob. repeat split; assumption.
Defined.

(** C5, the claim as stated, fails: a plaintext of 16 bytes, one whole block,
    gives 32 bytes of cipher output, and 16 rounded up to the block size is
    16. *)
Lemma blob_body_not_rounded_up :
  let data := VStr "0123456789abcdef" in
  exists blob,
    result (Database._encrypt (L := Ref.lib) data) (Ref.fresh_world "pw") = Ok blob /\
    length (plaintext_of (L := Ref.lib) data) = 16 /\
    length (body_of blob) = 32 /\
    length (body_of blob) <>
      round_up (length (plaintext_of (L := Ref.lib) data)) AES.block_size.
Proof.
  eexists. split; [vm_compute; reflexivity|].
  split; [reflexivity|]. split; [reflexivity|].
  vm_compute. discriminate.
Qed.

(* ===================================================================== *)
(** ** The store: queries, commit, frame of an encryption *)
(* ===================================================================== *)

Lemma Ok_inj {A} (a b : A) : Ok a = Ok b -> a = b.
Proof. congruence. Qed.

Lemma existsb_find {A} (f : A -> bool) (l : list A) :
  existsb f l = match find f l with Some _ => true | None => false end.
Proof.
  induction l as [|a l IH]; simpl; [reflexivity|].
  destruct (f a); simpl; [reflexivity|exact IH].
Qed.

Section Store.
Context (L : Lib).

Lemma exists_run (n : string) (w : World) :
  Database.exists_ n w = (Ok (existsb (has_name n) (table w)), w).
Proof.
  unfold Database.exists_, Database.query_first. unfold_monad.
  now rewrite existsb_find.
Qed.

Lemma count_run (w : World) : Database.count w = (Ok (length (table w)), w).
Proof. reflexivity. Qed.

(** [get] is a lookup and a decryption; the world is not changed. *)
Lemma get_run (n : string) (w : World) :
  Database.get n w =
    (match find (has_name n) (table w) with
     | Some c => rbind (decrypt_with (_pswd w) (items c) true)
                   (fun v => Ok (Some (mkLoaded c v)))
     | None => Ok None
     end, w).
Proof.
  unfold Database.get, Database.query_first, Database.load. unfold_monad.
  destruct (find (has_name n) (table w)) as [c|]; [|reflexivity].
  rewrite decrypt_run. now destruct (decrypt_with _ _ _).
Qed.

Lemma resolve_run (t : target) (w : World) :
  Database.resolve t w =
    (match t with
     | ByRef c => Ok (Some c)
     | ByName n =>
         match find (has_name n) (table w) with
         | Some c => rbind (decrypt_with (_pswd w) (items c) true)
                       (fun _ => Ok (Some c))
         | None => Ok None
         end
     end, w).
Proof.
  destruct t as [n|c]; [|reflexivity].
  unfold Database.resolve. unfold bind at 1. rewrite get_run.
  destruct (find (has_name n) (table w)) as [c|]; [|reflexivity].
  now destruct (decrypt_with _ _ _).
Qed.

(** What an encryption may change: the cursor, by at most 32 bytes; a blob
    it returns starts with the 32 bytes drawn. *)
Lemma encrypt_frame (data : pyval) (w : World) :
  let r := result (Database._encrypt data) w in
  let w' := after (Database._encrypt data) w in
  _pswd w' = _pswd w /\ table w' = table w /\
  password_file w' = password_file w /\ urandom w' = urandom w /\
  cursor w <= cursor w' <= cursor w + 32 /\
  forall blob, r = Ok blob ->
    cursor w' = cursor w + 32 /\
    firstn 32 blob = window (urandom w) (cursor w) 32.
Proof.
  unfold result, after.
  unfold Database._encrypt, Database._derive_key, AES.new, AES.encrypt.
  unfold_monad. cbn [_pswd table password_file urandom cursor].
  destruct (AES.key_size_ok _); cbn [negb fst snd _pswd table password_file urandom cursor].
  2:{ do 4 (split; [reflexivity|]). split; [lia|]. discriminate. }
  unfold AES.block_size. rewrite window_length, Nat.eqb_refl.
  cbn [negb AES.key AES.iv].
  rewrite (pad_length_mod _ 16) by lia.
  cbn [Nat.eqb negb fst snd _pswd table password_file urandom cursor].
  do 4 (split; [reflexivity|]). split; [lia|].
  intros blob Hb. apply Ok_inj in Hb. subst blob. split; [lia|].
  rewrite prefix_of_blob, salt_of_blob, iv_of_blob by apply window_length.
  symmetry. apply (window_app _ _ 16 16).
Qed.

(** [insert] encrypts first and commits afterwards. *)
Lemma insert_run (n : string) (its : Items) (w : World) :
  kdf_length L ->
  let blob := blob_of (_pswd w) (window (urandom w) (cursor w) 16)
                (window (urandom w) (cursor w + 16) 16) (dict_of its) in
  Database.insert n its w =
    if existsb (has_name n) (table w)
    then (Raise IntegrityError, drawn 32 w)
    else (Ok tt,
          mkWorld (_pswd w)
            (table w ++ [mkCredential (next_id (table w)) n blob])
            (password_file w) (urandom w) (cursor w + 32)).
Proof.
  intros Hkdf blob. unfold Database.insert. unfold bind.
  rewrite encrypt_run by assumption. fold blob.
  unfold commit, drawn. cbn [table flush flush1 rbind].
  destruct (existsb (has_name n) (table w)); reflexivity.
Qed.

End Store.

(* ===================================================================== *)
(** ** The store: insert, update, delete, get *)
(* ===================================================================== *)




(** C8 (as amended).  The store validates neither names nor keys: for every
    world and every name not yet present, empty or not, and every items map,
    with empty keys or not, [insert] succeeds and appends one record with that
    name, a fresh id and the encrypted items. *)
Theorem insert_accepts_any_name (L : Lib) (w : World) (n : string) (its : Items) :
  kdf_length L ->
  result (Database.exists_ n) w = Ok false ->
  result (Database.insert n its) w = Ok tt /\
  (exists blob,
     result (Database._encrypt (dict_of its)) w = Ok blob /\
     table (after (Database.insert n its) w) =
       table w ++ [mkCredential (next_id (table w)) n blob]) /\
  result Database.count (after (Database.insert n its) w) =
    Ok (S (length (table w))).
Proof.
  intros Hkdf Hex. unfold result in Hex. rewrite exists_run in Hex.
  apply Ok_inj in Hex. unfold result, after.
  rewrite insert_run, Hex by assumption. cbn [fst snd].
  split; [reflexivity|]. split.
  - eexists. rewrite encrypt_run by assumption. split; reflexivity.
  - rewrite count_run. cbn [fst table]. rewrite length_app. cbn [length].
    f_equal. lia.
Qed.

Lemma insert_accepts_any_name_witness :
  result (Database.insert (L := Ref.lib) "" [(""%string, "v"%string)])
    (Ref.fresh_world "pw") = Ok tt /\
  result (Database.count)
    (after (Database.insert (L := Ref.lib) "" [(""%string, "v"%string)])
       (Ref.fresh_world "pw")) = Ok 1.
Proof.
  destruct (insert_accepts_any_name Ref.lib (Ref.fresh_world "pw") ""
              [(""%string, "v"%string)] ref_kdf_length eq_refl)
    as (Hr & _ & Hc).
  split; assumption.
Defined.

(** C8, the claim as stated, fails: [insert] with the empty name and an items
    map whose only key is empty raises nothing and persists the record. *)
Lemma insert_empty_name_and_key_persists :
  let c := Database.insert (L := Ref.lib) "" [(""%string, "v"%string)] in
  result c (Ref.fresh_world "pw") = Ok tt /\
  map name (table (after c (Ref.fresh_world "pw"))) = [""%string] /\
  result (Database.get (L := Ref.lib) "") (after c (Ref.fresh_world "pw")) =
    Ok (Some (mkLoaded
                (mkCredential 1 ""
                   (match table (after c (Ref.fresh_world "pw")) with
                    | r :: _ => items r
                    | [] => []
                    end))
                (VDict [(""%string, VStr "v")]))).
Proof.
  repeat split; vm_compute; reflexivity.
Qed.

(** C7 (as amended).  [update] and [delete] take a [Credential] as it is and
    look a name up with [get]; when no record has the name, the lookup gives
    [None] and both return silently: no exception, and the world, entropy
    cursor included, is exactly as before. *)
Theorem update_delete_unknown_name
  (L : Lib) (w : World) (n new_name : string) (new_items : Items) :
  result (Database.exists_ n) w = Ok false ->
  (forall c, Database.resolve (ByRef c) w = (Ok (Some c), w)) /\
  Database.resolve (ByName n) w = (Ok None, w) /\
  Database.update (ByName n) new_name new_items w = (Ok tt, w) /\
  Database.delete (ByName n) w = (Ok tt, w).
Proof.
  intros Hex. unfold result in Hex. rewrite exists_run, existsb_find in Hex.
  apply Ok_inj in Hex.
  assert (Hfind : find (has_name n) (table w) = None)
    by (destruct (find (has_name n) (table w)); [discriminate|reflexivity]).
  assert (Hres : Database.resolve (ByName n) w = (Ok None, w))
    by (rewrite resolve_run, Hfind; reflexivity).
  split; [intros c; apply resolve_run|]. split; [exact Hres|].
  unfold Database.update, Database.delete. unfold bind at 1 3.
  rewrite Hres. split; reflexivity.
Qed.

Lemma update_delete_unknown_name_witness :
  Database.update (L := Ref.lib) (ByName "Gitlab") "GitHub2" github_items github_world
    = (Ok tt, github_world) /\
  Database.delete (L := Ref.lib) (ByName "Gitlab") github_world
    = (Ok tt, github_world).
Proof.
  destruct (update_delete_unknown_name Ref.lib github_world "Gitlab" "GitHub2"
              github_items eq_refl) as (_ & _ & Hu & Hd).
  split; assumption.
Defined.

(** C7, the claim as stated, fails: in a vault whose only record is "GitHub",
    [update] and [delete] of the name "Gitlab" find no record and return
    normally, where the claim has them raise. *)
Lemma update_delete_unknown_name_silent :
  result (Database.exists_ "Gitlab") github_world = Ok false /\
  result (Database.update (L := Ref.lib) (ByName "Gitlab") "GitHub2" github_items)
    github_world = Ok tt /\
  result (Database.delete (L := Ref.lib) (ByName "Gitlab")) github_world = Ok tt /\
  (forall e, result (Database.delete (L := Ref.lib) (ByName "Gitlab")) github_world
             <> Raise e).
Proof.
  repeat split; try (vm_compute; reflexivity).
  intros e. vm_compute. discriminate.
Qed.

(** C9.  Idempotent read: for every world and every name, two calls of [get]
    in a row return the same outcome, and neither changes the world: table
    (ids, names, payloads), session password, password file and entropy cursor
    stay as they were.  When a record has the name, the outcome is that record
    with the items its payload decrypts to. *)
Theorem get_twice (L : Lib) (w : World) (n : string) :
  let r1 := result (Database.get n) w in
  let w1 := after (Database.get n) w in
  let r2 := result (Database.get n) w1 in
  let w2 := after (Database.get n) w1 in
  w1 = w /\ w2 = w /\ r2 = r1 /\
  (forall c, find (has_name n) (table w) = Some c ->
     r1 = rbind (result (Database._decrypt (items c) true) w)
            (fun v => Ok (Some (mkLoaded c v)))).
Proof.
  intros r1 w1 r2 w2.
  assert (Hw1 : w1 = w) by (unfold w1, after; now rewrite get_run).
  assert (Hw2 : w2 = w) by (unfold w2, after; now rewrite Hw1, get_run).
  assert (Hr : r2 = r1) by (unfold r2; now rewrite Hw1).
  repeat split; try assumption. unfold r1, result. rewrite get_run. cbn [fst].
  intros c Hc. now rewrite Hc, decrypt_run.
Qed.

(* ===================================================================== *)
(** ** Writing attributes of rows *)
(* ===================================================================== *)

(** A conditional rewrite that matches no element changes nothing. *)
Lemma map_no_match {A} (p : A -> bool) (f : A -> A) (l : list A) :
  existsb p l = false -> map (fun a => if p a then f a else a) l = l.
Proof.
  induction l as [|a l IH]; simpl; [reflexivity|].
  intros H. apply orb_false_iff in H as [Ha Hl].
  now rewrite Ha, IH.
Qed.

Lemma flush1_SetAttrs (tbl tbl' : list Credential) (cid : Z)
      (nn : option string) (b : bytes) :
  flush1 tbl (SetAttrs cid nn b) = Ok tbl' ->
  tbl' = map (fun c => if has_id cid c
                       then mkCredential (id c)
                              (match nn with Some n => n | None => name c end) b
                       else c) tbl.
Proof.
  unfold flush1.
  destruct (existsb (has_id cid) tbl) eqn:E; cbn [negb].
  - destruct (match nn with Some _ => _ | None => _ end); [discriminate|].
    intros H. now apply Ok_inj in H.
  - intros H. apply Ok_inj in H. subst tbl'. symmetry.
    exact (map_no_match (has_id cid) _ tbl E).
Qed.

Lemma flush1_SetAttrs_error (tbl : list Credential) (cid : Z)
      (nn : option string) (b : bytes) (e : exn) :
  flush1 tbl (SetAttrs cid nn b) = Raise e -> e = IntegrityError.
Proof.
  unfold flush1.
  destruct (existsb (has_id cid) tbl); cbn [negb]; [|discriminate].
  destruct (match nn with Some _ => _ | None => _ end); congruence.
Qed.

Lemma map_id_set_attrs (tbl : list Credential) (cid : Z) (f : Credential -> string)
      (b : bytes) :
  map id (map (fun c => if has_id cid c then mkCredential (id c) (f c) b else c) tbl)
  = map id tbl.
Proof.
  rewrite map_map. apply map_ext. intros c. now destruct (has_id cid c).
Qed.

Lemma update_run (L : Lib) (t : target) (nn : string) (ni : Items) (w : World) :
  Database.update t nn ni w =
    match fst (Database.resolve t w) with
    | Ok (Some c) =>
        let (r, w1) := Database._encrypt (dict_of ni) w in
        match r with
        | Ok blob => commit [SetAttrs (id c) (Some nn) blob] w1
        | Raise e => (Raise e, w1)
        end
    | Ok None => (Ok tt, w)
    | Raise e => (Raise e, w)
    end.
Proof.
  unfold Database.update. unfold bind at 1. rewrite resolve_run. cbn [fst].
  set (r := match t with ByName _ => _ | ByRef _ => _ end).
  destruct r as [[c|]|e]; reflexivity.
Qed.

(** C10.  [update] never changes an id: for every world, target, new name and
    new items, the ids of the table after the call are the ids before, in the
    same order, whether the call succeeds or raises.  When the target resolves
    to a record [c] and the call succeeds, the table is the old one with the
    name and the payload of the rows of id [id c] replaced by the new name and
    the fresh encryption of the new items, ids kept, and all other rows
    untouched; when the call does not succeed the table is unchanged. *)
Theorem update_keeps_id
  (L : Lib) (w : World) (t : target) (new_name : string) (new_items : Items) :
  let w' := after (Database.update t new_name new_items) w in
  map id (table w') = map id (table w) /\
  (forall c, result (Database.resolve t) w = Ok (Some c) ->
     result (Database.update t new_name new_items) w = Ok tt ->
     exists blob,
       result (Database._encrypt (dict_of new_items)) w = Ok blob /\
       table w' = map (fun c0 => if has_id (id c) c0
                                 then mkCredential (id c0) new_name blob
                                 else c0) (table w)) /\
  (result (Database.update t new_name new_items) w <> Ok tt ->
   table w' = table w).
Proof.
  intros w'. subst w'. unfold result, after.
  rewrite !update_run. rewrite resolve_run. cbn [fst snd].
  set (r := match t with ByName _ => _ | ByRef _ => _ end).
  destruct r as [[c|]|e]; cbn [fst snd].
  2:{ split; [reflexivity|]. split; [discriminate|]. intros H. now elim H. }
  2:{ split; [reflexivity|]. split; [discriminate|reflexivity]. }
  pose proof (encrypt_frame L (dict_of new_items) w) as Hf.
  unfold result, after in Hf. cbv zeta in Hf.
  destruct (Database._encrypt (dict_of new_items) w) as [[blob|e] w1] eqn:Eenc;
    cbn [fst snd] in *.
  2:{ destruct Hf as (_ & Ht & _). rewrite Ht.
      split; [reflexivity|]. split; [discriminate|reflexivity]. }
  destruct Hf as (_ & Ht & _).
  unfold commit. cbn [flush rbind]. rewrite Ht.
  destruct (flush1 (table w) (SetAttrs (id c) (Some new_name) blob))
    as [tbl'|e] eqn:Efl; cbn [rbind fst snd table].
  - apply flush1_SetAttrs in Efl. subst tbl'.
    split; [apply map_id_set_attrs|]. split.
    + intros c0 Hc0 _. apply Ok_inj in Hc0. injection Hc0 as <-.
      exists blob. split; reflexivity.
    + intros H. now elim H.
  - rewrite Ht. split; [reflexivity|]. split; [discriminate|reflexivity].
Qed.

Lemma update_keeps_id_witness :
  let w' := after (Database.update (L := Ref.lib)
                     (ByName "GitHub") "GitHub2" github_items) github_world in
  map id (table github_world) = [1%Z] /\
  map id (table w') = [1%Z] /\
  map name (table w') = ["GitHub2"%string].
Proof.
  cbv zeta.
  destruct (update_keeps_id Ref.lib github_world (ByName "GitHub") "GitHub2"
              github_items) as (Hid & Hrow & _).
  split; [reflexivity|]. split.
  - rewrite Hid. reflexivity.
  - destruct (Hrow (mkCredential 1 "GitHub" github_blob) eq_refl eq_refl)
      as (blob & _ & Htbl).
    rewrite Htbl. reflexivity.
Defined.

(* ===================================================================== *)
(** ** Freshness is kept by every change of the table *)
(* ===================================================================== *)

Lemma ForallOrdPairs_impl {A} (R R' : A -> A -> Prop) (l : list A) :
  (forall a b, R a b -> R' a b) -> ForallOrdPairs R l -> ForallOrdPairs R' l.
Proof.
  intros HR. induction 1 as [|a l Ha Hl IH]; constructor; [|exact IH].
  eapply Forall_impl; [|exact Ha]. intros b. apply HR.
Qed.

Lemma ForallOrdPairs_snoc {A} (R : A -> A -> Prop) (l : list A) (a : A) :
  ForallOrdPairs R l -> Forall (fun x => R x a) l -> ForallOrdPairs R (l ++ [a]).
Proof.
  induction 1 as [|x l Hx Hl IH]; intros Ha; simpl.
  - repeat constructor.
  - inversion Ha as [|? ? Hxa Hla]; subst.
    constructor; [|now apply IH].
    apply Forall_app. split; [exact Hx|]. constructor; [exact Hxa|constructor].
Qed.

Lemma ForallOrdPairs_filter {A} (R : A -> A -> Prop) (f : A -> bool) (l : list A) :
  ForallOrdPairs R l -> ForallOrdPairs R (filter f l).
Proof.
  induction 1 as [|x l Hx Hl IH]; simpl; [constructor|].
  destruct (f x); [|exact IH].
  constructor; [|exact IH].
  apply Forall_forall. intros y Hy. apply filter_In in Hy as [Hy _].
  rewrite Forall_forall in Hx. now apply Hx.
Qed.

Lemma NoDup_map_filter {A B} (g : A -> B) (f : A -> bool) (l : list A) :
  NoDup (map g l) -> NoDup (map g (filter f l)).
Proof.
  induction l as [|a l IH]; simpl; [trivial|].
  intros H. inversion H as [|? ? Hn Hl]; subst.
  destruct (f a); simpl; [|now apply IH].
  constructor; [|now apply IH].
  intros Hin. apply Hn. apply in_map_iff in Hin as (x & Hx & Hxl).
  apply in_map_iff. exists x. split; [exact Hx|].
  now apply filter_In in Hxl as [Hxl _].
Qed.

Lemma id_below_next_id (tbl : list Credential) (c : Credential) :
  In c tbl -> (id c < next_id tbl)%Z.
Proof.
  unfold next_id. induction tbl as [|a l IH]; cbn [map fold_right In];
    [contradiction|].
  intros [->|Hin].
  - lia.
  - specialize (IH Hin). lia.
Qed.

Lemma next_id_fresh (tbl : list Credential) : ~ In (next_id tbl) (map id tbl).
Proof.
  intros Hin. apply in_map_iff in Hin as (c & Hc & Hin).
  apply id_below_next_id in Hin. lia.
Qed.

Section Freshness.
Variable tape : nat -> byte.

Lemma row_at_mono (lo hi hi' : nat) (c : Credential) (p : nat) :
  hi <= hi' -> row_at tape lo hi c p -> row_at tape lo hi' c p.
Proof. unfold row_at. intros Hle (Hw & Hlo & Hhi). repeat split; (assumption || lia). Qed.

Lemma fresh_table_mono (lo hi hi' : nat) (tbl : list Credential) :
  hi <= hi' -> fresh_table tape lo hi tbl -> fresh_table tape lo hi' tbl.
Proof.
  intros Hle (Hnd & Hall & Hpairs). split; [exact Hnd|]. split.
  - eapply Forall_impl; [|exact Hall]. intros c (p & Hp).
    exists p. eapply row_at_mono; eassumption.
  - eapply ForallOrdPairs_impl; [|exact Hpairs].
    intros a b (p & q & Hp & Hq & Hap). exists p, q.
    repeat split; try assumption; eapply row_at_mono; eassumption.
Qed.

Lemma fresh_table_nil (lo hi : nat) : fresh_table tape lo hi [].
Proof. repeat split; constructor. Qed.

(** A new row whose payload starts with a draw at or after [hi]. *)
Lemma fresh_table_add (lo hi p0 : nat) (tbl : list Credential) (n : string) (b : bytes) :
  fresh_table tape lo hi tbl ->
  lo <= p0 -> hi <= p0 -> firstn 32 b = window tape p0 32 ->
  fresh_table tape lo (p0 + 32) (tbl ++ [mkCredential (next_id tbl) n b]).
Proof.
  intros Hf Hlo Hhi Hb.
  assert (Hnew : row_at tape lo (p0 + 32) (mkCredential (next_id tbl) n b) p0)
    by (repeat split; (assumption || lia)).
  apply (fresh_table_mono lo hi (p0 + 32)) in Hf as Hf'; [|lia].
  destruct Hf as (_ & Hold & _). destruct Hf' as (Hnd & Hall & Hpairs).
  split; [|split].
  - rewrite map_app. simpl. apply NoDup_app_remove_l with (l := []).
    simpl. apply NoDup_rev in Hnd.
    rewrite <- (rev_involutive (map id tbl ++ [next_id tbl])).
    apply NoDup_rev. rewrite rev_app_distr. simpl.
    constructor; [|exact Hnd].
    rewrite <- in_rev. apply next_id_fresh.
  - apply Forall_app. split; [exact Hall|].
    constructor; [|constructor]. now exists p0.
  - apply ForallOrdPairs_snoc; [exact Hpairs|].
    rewrite Forall_forall in Hold |- *. intros c Hc.
    destruct (Hold c Hc) as (p & Hp). exists p, p0.
    split; [eapply row_at_mono; [|exact Hp]; lia|]. split; [exact Hnew|].
    destruct Hp as (_ & _ & Hp). left. lia.
Qed.

(** The payload of the row of id [cid] replaced by one that starts with a draw
    at or after [hi]. *)
Lemma fresh_table_set (lo hi p0 : nat) (tbl : list Credential) (cid : Z)
      (f : Credential -> string) (b : bytes) :
  fresh_table tape lo hi tbl ->
  lo <= p0 -> hi <= p0 -> firstn 32 b = window tape p0 32 ->
  fresh_table tape lo (p0 + 32)
    (map (fun c => if has_id cid c then mkCredential (id c) (f c) b else c) tbl).
Proof.
  intros Hf Hlo Hhi Hb.
  set (g := fun c => if has_id cid c then mkCredential (id c) (f c) b else c).
  assert (Hnew : forall c, has_id cid c = true -> row_at tape lo (p0 + 32) (g c) p0).
  { intros c Hc. unfold g. rewrite Hc. repeat split; (assumption || lia). }
  assert (Hkeep : forall c p, has_id cid c = false -> row_at tape lo hi c p ->
                              row_at tape lo (p0 + 32) (g c) p).
  { intros c p Hc Hp. unfold g. rewrite Hc. eapply row_at_mono; [|exact Hp]. lia. }
  destruct Hf as (Hnd & Hall & Hpairs).
  split; [|split].
  - unfold g. now rewrite map_id_set_attrs.
  - rewrite Forall_map. eapply Forall_impl; [|exact Hall].
    intros c (p & Hp). destruct (has_id cid c) eqn:Hc.
    + exists p0. now apply Hnew.
    + exists p. now apply Hkeep.
  - clear Hlo. induction tbl as [|a l IH]; simpl; [constructor|].
    inversion Hnd as [|? ? Hna Hndl]; subst.
    inversion Hall as [|? ? Ha Halll]; subst.
    inversion Hpairs as [|? ? Hal Hpl]; subst.
    constructor; [|now apply IH].
    rewrite Forall_map. rewrite Forall_forall in Hal, Halll |- *.
    intros c Hc. destruct Ha as (pa & Hpa). destruct (Halll c Hc) as (pc & Hpc).
    destruct (has_id cid a) eqn:Ea, (has_id cid c) eqn:Ec.
    + exfalso. apply Hna. unfold has_id in Ea, Ec.
      apply Z.eqb_eq in Ea, Ec. rewrite Ea, <- Ec. now apply in_map.
    + exists p0, pc. split; [now apply Hnew|]. split; [now apply Hkeep|].
      destruct Hpc as (_ & _ & Hpc). right. lia.
    + exists pa, p0. split; [now apply Hkeep|]. split; [now apply Hnew|].
      destruct Hpa as (_ & _ & Hpa). left. lia.
    + destruct (Hal c Hc) as (p & q & Hp & Hq & Hap).
      exists p, q. split; [now apply Hkeep|]. split; [now apply Hkeep|exact Hap].
Qed.

Lemma fresh_table_del (lo hi : nat) (tbl : list Credential) (cid : Z) :
  fresh_table tape lo hi tbl ->
  fresh_table tape lo hi (filter (fun c => negb (has_id cid c)) tbl).
Proof.
  intros (Hnd & Hall & Hpairs). split; [|split].
  - now apply NoDup_map_filter.
  - apply Forall_forall. intros c Hc. apply filter_In in Hc as [Hc _].
    rewrite Forall_forall in Hall. now apply Hall.
  - now apply ForallOrdPairs_filter.
Qed.

Lemma fresh_changes_le (lo hi : nat) (ps : list pending) :
  fresh_changes tape lo hi ps -> lo <= hi.
Proof. induction 1; lia. Qed.

(** A flush of fresh changes keeps the table fresh. *)
Lemma flush_fresh (lo0 lo hi : nat) (ps : list pending) :
  fresh_changes tape lo hi ps ->
  forall tbl tbl', lo0 <= lo -> fresh_table tape lo0 lo tbl ->
                   flush tbl ps = Ok tbl' -> fresh_table tape lo0 hi tbl'.
Proof.
  induction 1 as [lo hi Hle|lo hi n b p ps Hp Hb Hps IH
                  |lo hi cid nn b p ps Hp Hb Hps IH|lo hi cid ps Hps IH];
    intros tbl tbl' Hlo0 Hf Hfl; cbn [flush] in Hfl.
  - apply Ok_inj in Hfl. subst tbl'. eapply fresh_table_mono; eassumption.
  - unfold flush1 in Hfl.
    destruct (existsb (has_name n) tbl); [discriminate|]. cbn [rbind] in Hfl.
    eapply IH; [|apply (fresh_table_add lo0 lo p); eassumption || lia|exact Hfl].
    lia.
  - destruct (flush1 tbl (SetAttrs cid nn b)) as [tbl1|e] eqn:E1; [|discriminate].
    cbn [rbind] in Hfl. apply (flush1_SetAttrs tbl tbl1) in E1. subst tbl1.
    eapply IH; [|apply (fresh_table_set lo0 lo p); eassumption || lia|exact Hfl].
    lia.
  - cbn [flush1 rbind] in Hfl.
    eapply IH; [exact Hlo0|apply fresh_table_del; exact Hf|exact Hfl].
Qed.

(** In a fresh table over an entropy source that never repeats itself, no two
    payloads share their salt and IV. *)
Lemma fresh_table_distinct (lo hi : nat) (tbl : list Credential) :
  distinct_draws tape lo hi -> fresh_table tape lo hi tbl ->
  ForallOrdPairs (fun c c' => salt_iv (items c) <> salt_iv (items c')) tbl.
Proof.
  intros Hd (_ & _ & Hpairs). eapply ForallOrdPairs_impl; [|exact Hpairs].
  intros a b (p & q & (Hp & Hpl & Hph) & (Hq & Hql & Hqh) & Hap) Heq.
  apply (Hd p q); try assumption.
  rewrite <- Hp, <- Hq, !prefix_of_blob.
  unfold salt_iv in Heq. injection Heq as -> ->. reflexivity.
Qed.

End Freshness.

(* ===================================================================== *)
(** ** Freshness is kept by every call of a session *)
(* ===================================================================== *)

Section Sessions.
Context (L : Lib).

Lemma same_store_refl (w : World) : same_store w w.
Proof. repeat split; lia. Qed.

Lemma encrypt_same_store (data : pyval) (w : World) :
  same_store w (after (Database._encrypt data) w).
Proof.
  destruct (encrypt_frame L data w) as (H1 & H2 & H3 & H4 & H5 & _).
  repeat split; (assumption || lia).
Qed.

Lemma mapM_cons {A B} (f : A -> M B) (a : A) (l : list A) (w : World) :
  mapM f (a :: l) w =
    match f a w with
    | (Ok b, w1) =>
        match mapM f l w1 with
        | (Ok bs, w2) => (Ok (b :: bs), w2)
        | (Raise e, w2) => (Raise e, w2)
        end
    | (Raise e, w1) => (Raise e, w1)
    end.
Proof.
  cbn [mapM]. unfold bind at 1. destruct (f a w) as [[b|e] w1]; [|reflexivity].
  unfold bind. destruct (mapM f l w1) as [[bs|e] w2]; reflexivity.
Qed.

Lemma load_run (c : Credential) (w : World) :
  Database.load c w =
    (rbind (decrypt_with (_pswd w) (items c) true) (fun v => Ok (mkLoaded c v)), w).
Proof.
  unfold Database.load. unfold bind, ret. rewrite decrypt_run.
  now destruct (decrypt_with _ _ _).
Qed.

(** The decryptions of [get_all] change nothing. *)
Lemma mapM_load_run (l : list Credential) (w : World) :
  snd (mapM Database.load l w) = w.
Proof.
  induction l as [|c l IH]; [reflexivity|].
  rewrite mapM_cons, load_run.
  destruct (decrypt_with (_pswd w) (items c) true) as [v|e]; cbn [rbind];
    [|reflexivity].
  destruct (mapM Database.load l w) as [[vs|e] w']; cbn [snd] in *; exact IH.
Qed.

Lemma get_all_run (w : World) : after Database.get_all w = w.
Proof.
  unfold after, Database.get_all. unfold bind at 1. unfold gets.
  apply mapM_load_run.
Qed.

Lemma delete_run (t : target) (w : World) :
  Database.delete t w =
    match fst (Database.resolve t w) with
    | Ok (Some c) => commit [Del (id c)] w
    | Ok None => (Ok tt, w)
    | Raise e => (Raise e, w)
    end.
Proof.
  unfold Database.delete. unfold bind at 1. rewrite resolve_run. cbn [fst].
  set (r := match t with ByName _ => _ | ByRef _ => _ end).
  destruct r as [[c|]|e]; reflexivity.
Qed.

Lemma change_pswd_run (p : string) (w : World) :
  Database.change_pswd p w =
    match result Database.get_all w with
    | Ok creds =>
        match mapM Database.reencrypt creds (with_pswd p w) with
        | (Ok ps, w2) => commit ps w2
        | (Raise e, w2) => (Raise e, w2)
        end
    | Raise e => (Raise e, w)
    end.
Proof.
  unfold Database.change_pswd, result. unfold bind at 1.
  pose proof (get_all_run w) as Hg. unfold after in Hg.
  destruct (Database.get_all w) as [[creds|e] w0]; cbn [fst snd] in *; subst w0;
    [|reflexivity].
  unfold bind at 1. unfold Database.set_pswd at 1. fold (with_pswd p w).
  unfold bind at 1. reflexivity.
Qed.

Lemma reencrypt_run (c : Loaded) (w : World) :
  Database.reencrypt c w =
    (match result (Database._encrypt (items_dict c)) w with
     | Ok blob => Ok (SetAttrs (id (row c)) None blob)
     | Raise e => Raise e
     end, after (Database._encrypt (items_dict c)) w).
Proof.
  unfold Database.reencrypt, result, after. unfold bind, ret.
  destruct (Database._encrypt (items_dict c) w) as [[blob|e] w1]; reflexivity.
Qed.

(** The encryptions of [change_pswd] draw successive salts and IVs. *)
Lemma reencrypt_fresh (creds : list Loaded) :
  forall w r w',
    mapM Database.reencrypt creds w = (r, w') ->
    same_store w w' /\
    forall ps, r = Ok ps -> fresh_changes (urandom w) (cursor w) (cursor w') ps.
Proof.
  induction creds as [|a l IH]; intros w r w' Hrun.
  - injection Hrun as <- <-. split; [apply same_store_refl|].
    intros ps Hps. apply Ok_inj in Hps. subst ps. constructor. apply Nat.le_refl.
  - rewrite mapM_cons, reencrypt_run in Hrun.
    destruct (encrypt_frame L (items_dict a) w)
      as (Hp & Ht & Hf & Hu & Hc & Hblob).
    destruct (result (Database._encrypt (items_dict a)) w) as [blob|e].
    2:{ injection Hrun as <- <-.
        split; [repeat split; (assumption || lia)|discriminate]. }
    destruct (Hblob blob eq_refl) as (Hc1 & Hb).
    destruct (mapM Database.reencrypt l (after (Database._encrypt (items_dict a)) w))
      as [r1 w2] eqn:E.
    destruct (IH _ _ _ E) as ((Hp' & Ht' & Hf' & Hu' & Hc') & IH').
    destruct r1 as [ps|e]; injection Hrun as <- <-.
    + split; [repeat split; (congruence || lia)|].
      intros ps' Hps'. apply Ok_inj in Hps'. subst ps'.
      apply (fresh_SetAttrs _ _ _ _ _ _ (cursor w)); [lia|exact Hb|].
      rewrite <- Hc1, <- Hu. now apply IH'.
    + split; [repeat split; (congruence || lia)|discriminate].
Qed.

(** A commit of fresh changes keeps the world fresh. *)
Lemma commit_fresh (lo : nat) (w w1 : World) (ps : list pending) :
  fresh_since lo w -> same_store w w1 ->
  fresh_changes (urandom w) (cursor w) (cursor w1) ps ->
  fresh_since lo (after (commit ps) w1) /\
  urandom (after (commit ps) w1) = urandom w.
Proof.
  intros (Hlo & Hf) (Hp & Ht & Hpf & Hu & Hc) Hps.
  unfold after, commit. rewrite Ht.
  destruct (flush (table w) ps) as [tbl'|e] eqn:E; cbn [snd].
  - split; [|exact Hu]. split; cbn [cursor urandom table]; [lia|].
    rewrite Hu. eapply flush_fresh; eassumption.
  - split; [|exact Hu]. split; [lia|]. rewrite Hu, Ht.
    eapply fresh_table_mono; eassumption.
Qed.

Lemma same_store_fresh (lo : nat) (w w' : World) :
  fresh_since lo w -> same_store w w' ->
  fresh_since lo w' /\ urandom w' = urandom w.
Proof.
  intros (Hlo & Hf) (Hp & Ht & Hpf & Hu & Hc).
  split; [|exact Hu]. split; [lia|]. rewrite Hu, Ht.
  eapply fresh_table_mono; eassumption.
Qed.

Lemma insert_fresh (lo : nat) (n : string) (its : Items) (w : World) :
  fresh_since lo w ->
  fresh_since lo (after (Database.insert n its) w) /\
  urandom (after (Database.insert n its) w) = urandom w.
Proof.
  intros Hw. unfold after, Database.insert. unfold bind.
  pose proof (encrypt_same_store (dict_of its) w) as Hs.
  destruct (encrypt_frame L (dict_of its) w) as (_ & _ & _ & _ & _ & Hblob).
  unfold result, after in *.
  destruct (Database._encrypt (dict_of its) w) as [[blob|e] w1]; cbn [fst snd] in *.
  - destruct (Hblob blob eq_refl) as (Hc1 & Hb).
    apply (commit_fresh lo w w1); [assumption|assumption|].
    apply (fresh_Add _ _ _ _ _ (cursor w)); [lia|exact Hb|].
    constructor. lia.
  - now apply same_store_fresh.
Qed.

Lemma update_fresh (lo : nat) (t : target) (nn : string) (ni : Items) (w : World) :
  fresh_since lo w ->
  fresh_since lo (after (Database.update t nn ni) w) /\
  urandom (after (Database.update t nn ni) w) = urandom w.
Proof.
  intros Hw. unfold after. rewrite update_run.
  destruct (fst (Database.resolve t w)) as [[c|]|e]; cbn [snd];
    try (split; [assumption|reflexivity]).
  pose proof (encrypt_same_store (dict_of ni) w) as Hs.
  destruct (encrypt_frame L (dict_of ni) w) as (_ & _ & _ & _ & _ & Hblob).
  unfold result, after in *.
  destruct (Database._encrypt (dict_of ni) w) as [[blob|e] w1]; cbn [fst snd] in *.
  - destruct (Hblob blob eq_refl) as (Hc1 & Hb).
    apply (commit_fresh lo w w1); [assumption|assumption|].
    apply (fresh_SetAttrs _ _ _ _ _ _ (cursor w)); [lia|exact Hb|].
    constructor. lia.
  - now apply same_store_fresh.
Qed.

Lemma delete_fresh (lo : nat) (t : target) (w : World) :
  fresh_since lo w ->
  fresh_since lo (after (Database.delete t) w) /\
  urandom (after (Database.delete t) w) = urandom w.
Proof.
  intros Hw. unfold after. rewrite delete_run.
  destruct (fst (Database.resolve t w)) as [[c|]|e]; cbn [snd];
    try (split; [assumption|reflexivity]).
  apply (commit_fresh lo w w); [assumption|apply same_store_refl|].
  constructor. constructor. lia.
Qed.

Lemma change_pswd_fresh (lo : nat) (p : string) (w : World) :
  fresh_since lo w ->
  fresh_since lo (after (Database.change_pswd p) w) /\
  urandom (after (Database.change_pswd p) w) = urandom w.
Proof.
  intros Hw. unfold after. rewrite change_pswd_run.
  destruct (result Database.get_all w) as [creds|e]; cbn [snd];
    [|split; [assumption|reflexivity]].
  assert (Hw1 : fresh_since lo (with_pswd p w)) by exact Hw.
  destruct (mapM Database.reencrypt creds (with_pswd p w)) as [r w2] eqn:E.
  destruct (reencrypt_fresh creds _ r w2 E) as (Hs & Hps).
  destruct r as [ps|e]; cbn [snd].
  - apply (commit_fresh lo (with_pswd p w) w2); [assumption|assumption|].
    now apply Hps.
  - now apply (same_store_fresh lo (with_pswd p w) w2).
Qed.

Lemma create_pswd_fresh (lo : nat) (p : string) (w : World) :
  fresh_since lo w ->
  fresh_since lo (after (Auth.create_pswd p) w) /\
  urandom (after (Auth.create_pswd p) w) = urandom w.
Proof.
  intros (Hlo & Hf). unfold after, Auth.create_pswd, Auth.write_password_file.
  unfold_monad. cbn [snd]. split; [|reflexivity].
  split; cbn [cursor urandom table]; [lia|].
  eapply fresh_table_mono; [|exact Hf]. lia.
Qed.

Lemma change_password_command_exec (p : string) (w : World) :
  after (Main.change_password_command p) w =
  after (Database.change_pswd p) (after (Auth.create_pswd p) w).
Proof.
  unfold after, Main.change_password_command. unfold bind at 1.
  unfold Auth.create_pswd, Auth.write_password_file. unfold_monad. reflexivity.
Qed.

(** Every call keeps the world fresh and the entropy source in place. *)
Lemma exec_fresh (lo : nat) (c : command) (w : World) :
  fresh_since lo w ->
  fresh_since lo (exec c w) /\ urandom (exec c w) = urandom w.
Proof.
  intros Hw. destruct c as [n its|n| |t nn ni|t|p|p|p]; cbn [exec].
  - now apply insert_fresh.
  - unfold after. rewrite get_run. split; [assumption|reflexivity].
  - rewrite get_all_run. split; [assumption|reflexivity].
  - now apply update_fresh.
  - now apply delete_fresh.
  - now apply change_pswd_fresh.
  - now apply create_pswd_fresh.
  - rewrite change_password_command_exec.
    destruct (create_pswd_fresh lo p w Hw) as (H1 & Hu1).
    destruct (change_pswd_fresh lo p _ H1) as (H2 & Hu2).
    split; [exact H2|congruence].
Qed.

Lemma run_fresh (lo : nat) (cs : list command) :
  forall w, fresh_since lo w ->
            fresh_since lo (run cs w) /\ urandom (run cs w) = urandom w.
Proof.
  induction cs as [|c cs IH]; intros w Hw; cbn [run fold_left].
  - split; [assumption|reflexivity].
  - destruct (exec_fresh lo c w Hw) as (H1 & Hu1).
    destruct (IH _ H1) as (H2 & Hu2).
    split; [exact H2|]. unfold run in Hu2. congruence.
Qed.

End Sessions.

(* ===================================================================== *)
(** ** Fresh salt and IV *)
(* ===================================================================== *)

Lemma salt_iv_of_prefix (tape : nat -> byte) (p : nat) (blob : bytes) :
  firstn 32 blob = window tape p 32 ->
  salt_iv blob = (window tape p 16, window tape (p + 16) 16).
Proof.
  intros H. unfold salt_iv, salt_of, iv_of.
  assert (H16 : window tape p 32 = window tape p 16 ++ window tape (p + 16) 16)
    by apply (window_app tape p 16 16).
  f_equal.
  - replace (firstn 16 blob) with (firstn 16 (firstn 32 blob))
      by (rewrite firstn_firstn; reflexivity).
    rewrite H, H16, firstn_app, window_length, Nat.sub_diag, firstn_O, app_nil_r.
    apply firstn_all2. rewrite window_length. lia.
  - replace (firstn 16 (skipn 16 blob)) with (skipn 16 (firstn 32 blob))
      by (rewrite skipn_firstn_comm; reflexivity).
    rewrite H, H16, skipn_app, window_length, Nat.sub_diag, skipn_O.
    rewrite skipn_all2 by (rewrite window_length; lia). reflexivity.
Qed.

Lemma salt_iv_prefix (b1 b2 : bytes) :
  salt_iv b1 = salt_iv b2 -> firstn 32 b1 = firstn 32 b2.
Proof.
  unfold salt_iv. intros H. injection H as Hs Hi.
  now rewrite !prefix_of_blob, Hs, Hi.
Qed.

(** C6.  Fresh salt and IV.  Every encryption that returns a blob has drawn 32
    bytes from the entropy source, 16 for the salt and the next 16 for the IV,
    and stored them as bytes [0:32] of the blob.  Two encryptions whose draws
    differ return different blobs with different salt/IV pairs, also for the
    same password and the same payload.  In a vault that starts empty, after
    any sequence of calls (insert, get, get_all, update, delete, change of
    password, creation of the password file), no two stored payloads share a
    salt/IV pair, as long as the entropy source did not repeat itself: two
    draws of 32 bytes that do not overlap differ. *)
Theorem fresh_salt_and_iv (L : Lib) :
  (forall data w blob,
      result (Database._encrypt data) w = Ok blob ->
      salt_iv blob = (window (urandom w) (cursor w) 16,
                      window (urandom w) (cursor w + 16) 16) /\
      cursor (after (Database._encrypt data) w) = cursor w + 32) /\
  (forall data w1 w2 b1 b2,
      result (Database._encrypt data) w1 = Ok b1 ->
      result (Database._encrypt data) w2 = Ok b2 ->
      window (urandom w1) (cursor w1) 32 <> window (urandom w2) (cursor w2) 32 ->
      b1 <> b2 /\ salt_iv b1 <> salt_iv b2) /\
  (forall cs w0,
      table w0 = [] ->
      distinct_draws (urandom w0) (cursor w0) (cursor (run cs w0)) ->
      ForallOrdPairs (fun c c' => salt_iv (items c) <> salt_iv (items c'))
        (table (run cs w0))).
Proof.
  split; [|split].
  - intros data w blob Hb.
    destruct (encrypt_frame L data w) as (_ & _ & _ & _ & _ & Hblob).
    destruct (Hblob blob Hb) as (Hc & Hp).
    split; [now apply salt_iv_of_prefix|exact Hc].
  - intros data w1 w2 b1 b2 H1 H2 Hne.
    destruct (encrypt_frame L data w1) as (_ & _ & _ & _ & _ & Hblob1).
    destruct (encrypt_frame L data w2) as (_ & _ & _ & _ & _ & Hblob2).
    destruct (Hblob1 b1 H1) as (_ & Hp1). destruct (Hblob2 b2 H2) as (_ & Hp2).
    assert (Hpre : firstn 32 b1 <> firstn 32 b2) by congruence.
    split.
    + intros ->. now apply Hpre.
    + intros Heq. apply Hpre. now apply salt_iv_prefix.
  - intros cs w0 Hempty Hd.
    assert (H0 : fresh_since (cursor w0) w0).
    { split; [apply Nat.le_refl|]. rewrite Hempty. apply fresh_table_nil. }
    destruct (run_fresh L (cursor w0) cs w0 H0) as ((_ & Hf) & Hu).
    rewrite Hu in Hf.
    eapply fresh_table_distinct; eassumption.
Qed.

(** Identical items inserted twice: the two payloads have different salts and
    IVs. *)
Lemma fresh_salt_and_iv_witness :
  let w := run (L := Ref.lib)
             [Insert "a" github_items; Insert "b" github_items]
             (Ref.fresh_world "pw") in
  length (table w) = 2 /\
  ForallOrdPairs (fun c c' => salt_iv (items c) <> salt_iv (items c')) (table w).
Proof.
  cbv zeta. split; [reflexivity|].
  destruct (fresh_salt_and_iv Ref.lib) as (_ & _ & Hstore).
  apply Hstore; [reflexivity|].
  assert (Hc : cursor (run (L := Ref.lib)
                         [Insert "a" github_items; Insert "b" github_items]
                         (Ref.fresh_world "pw")) = 64) by reflexivity.
  rewrite Hc. intros p q _ _ Hp Hq Hap.
  assert (Hpq : (p = 0 /\ q = 32) \/ (p = 32 /\ q = 0))
    by (unfold apart in Hap; lia).
  destruct Hpq as [[-> ->]|[-> ->]]; intros Heq; vm_compute in Heq; discriminate Heq.
Defined.

(* ===================================================================== *)
(** ** Password rotation *)
(* ===================================================================== *)

Section Rotation.
Context (L : Lib).

Lemma mapM_load_result (l : list Credential) (w : World) :
  mapM Database.load l w = (load_all (_pswd w) l, w).
Proof.
  induction l as [|c l IH]; [reflexivity|].
  rewrite mapM_cons, load_run, IH. cbn [load_all].
  destruct (decrypt_with (_pswd w) (items c) true) as [v|e]; cbn [rbind];
    [|reflexivity].
  destruct (load_all (_pswd w) l); reflexivity.
Qed.

Lemma get_all_result (w : World) :
  result Database.get_all w = load_all (_pswd w) (table w).
Proof.
  unfold result, Database.get_all. unfold bind at 1. unfold gets.
  now rewrite mapM_load_result.
Qed.











End Rotation.







(* ===================================================================== *)
(** ** The table changes only through a commit *)
(* ===================================================================== *)

Section TableInvariants.
Context (L : Lib).

Lemma commit_table (ps : list pending) (w : World) :
  exists ps', flush (table w) ps' = Ok (table (after (commit ps) w)).
Proof.
  unfold after, commit.
  destruct (flush (table w) ps) as [tbl'|e] eqn:E; cbn [snd table].
  - now exists ps.
  - now exists [].
Qed.

Lemma commit_table_from (ps : list pending) (w w1 : World) :
  table w1 = table w ->
  exists ps', flush (table w) ps' = Ok (table (after (commit ps) w1)).
Proof. intros <-. apply commit_table. Qed.

(** Whatever a call does to the table, a flush of pending changes does. *)
Lemma exec_table (c : command) (w : World) :
  exists ps, flush (table w) ps = Ok (table (exec c w)).
Proof.
  assert (Hsame : forall w1, table w1 = table w ->
                    exists ps, flush (table w) ps = Ok (table w1)).
  { intros w1 ->. now exists []. }
  assert (Hchange : forall p w1, table w1 = table w ->
                      exists ps, flush (table w) ps =
                                 Ok (table (after (Database.change_pswd p) w1))).
  { intros p w1 Hw1. unfold after. rewrite change_pswd_run.
    destruct (result Database.get_all w1) as [creds|e]; cbn [snd];
      [|now apply Hsame].
    destruct (mapM Database.reencrypt creds (with_pswd p w1)) as [r w2] eqn:E.
    destruct (reencrypt_fresh L creds _ r w2 E) as ((_ & Ht & _) & _).
    cbn [with_pswd table] in Ht.
    destruct r as [ps|e]; cbn [snd].
    - apply commit_table_from. congruence.
    - apply Hsame. congruence. }
  destruct c as [n its|n| |t nn ni|t|p|p|p]; cbn [exec].
  - unfold after, Database.insert. unfold bind.
    destruct (encrypt_frame L (dict_of its) w) as (_ & Ht & _).
    unfold after in Ht.
    destruct (Database._encrypt (dict_of its) w) as [[blob|e] w1]; cbn [snd] in *.
    + now apply commit_table_from.
    + now apply Hsame.
  - unfold after. rewrite get_run. now apply Hsame.
  - rewrite get_all_run. now apply Hsame.
  - unfold after. rewrite update_run.
    destruct (fst (Database.resolve t w)) as [[c|]|e]; cbn [snd];
      try (now apply Hsame).
    destruct (encrypt_frame L (dict_of ni) w) as (_ & Ht & _).
    unfold after in Ht.
    destruct (Database._encrypt (dict_of ni) w) as [[blob|e] w1]; cbn [snd] in *.
    + now apply commit_table_from.
    + now apply Hsame.
  - unfold after. rewrite delete_run.
    destruct (fst (Database.resolve t w)) as [[c|]|e]; cbn [snd];
      try (now apply Hsame).
    apply commit_table.
  - now apply Hchange.
  - apply Hsame. reflexivity.
  - rewrite change_password_command_exec. apply Hchange. reflexivity.
Qed.

(** A property of tables that every single write keeps is kept by every
    session. *)
Lemma run_keeps (P : list Credential -> Prop) :
  (forall tbl p tbl', P tbl -> flush1 tbl p = Ok tbl' -> P tbl') ->
  forall cs w, P (table w) -> P (table (run cs w)).
Proof.
  intros HP.
  assert (Hflush : forall ps tbl tbl', P tbl -> flush tbl ps = Ok tbl' -> P tbl').
  { induction ps as [|p ps IH]; intros tbl tbl' Ht Hfl; cbn [flush] in Hfl.
    - apply Ok_inj in Hfl. now subst.
    - destruct (flush1 tbl p) as [tbl1|e] eqn:E; [|discriminate].
      cbn [rbind] in Hfl. eapply IH; [|exact Hfl]. eapply HP; eassumption. }
  induction cs as [|c cs IH]; intros w Hw; cbn [run fold_left]; [exact Hw|].
  apply IH. destruct (exec_table c w) as (ps & Hps).
  eapply Hflush; eassumption.
Qed.

End TableInvariants.

Lemma has_name_true (n : string) (c : Credential) :
  has_name n c = true <-> name c = n.
Proof. unfold has_name. apply String.eqb_eq. Qed.

Lemma has_name_false (n : string) (c : Credential) :
  has_name n c = false <-> name c <> n.
Proof. unfold has_name. apply String.eqb_neq. Qed.

Lemma has_id_true (i : Z) (c : Credential) : has_id i c = true <-> id c = i.
Proof. unfold has_id. apply Z.eqb_eq. Qed.

Lemma has_id_false (i : Z) (c : Credential) : has_id i c = false <-> id c <> i.
Proof. unfold has_id. apply Z.eqb_neq. Qed.

Lemma existsb_false_In {A} (f : A -> bool) (l : list A) (a : A) :
  existsb f l = false -> In a l -> f a = false.
Proof.
  intros H Hin. destruct (f a) eqn:E; [|reflexivity].
  assert (existsb f l = true) by (apply existsb_exists; now exists a).
  congruence.
Qed.

Lemma not_In_existsb_id (i : Z) (l : list Credential) :
  ~ In i (map id l) -> existsb (has_id i) l = false.
Proof.
  intros Hn. destruct (existsb (has_id i) l) eqn:E; [|reflexivity].
  apply existsb_exists in E as (c & Hc & Hi). apply has_id_true in Hi.
  exfalso. apply Hn. rewrite <- Hi. now apply in_map.
Qed.

Lemma not_In_existsb_name (n : string) (l : list Credential) :
  ~ In n (map name l) -> existsb (has_name n) l = false.
Proof.
  intros Hn. destruct (existsb (has_name n) l) eqn:E; [|reflexivity].
  apply existsb_exists in E as (c & Hc & Hi). apply has_name_true in Hi.
  exfalso. apply Hn. rewrite <- Hi. now apply in_map.
Qed.

(** A renaming that the UNIQUE constraint lets through keeps names distinct. *)
Lemma rename_keeps_names (tbl : list Credential) (cid : Z) (n : string) (b : bytes) :
  NoDup (map id tbl) -> NoDup (map name tbl) ->
  name_taken cid n tbl = false ->
  NoDup (map name (map (fun c => if has_id cid c
                                 then mkCredential (id c) n b else c) tbl)).
Proof.
  unfold name_taken.
  induction tbl as [|a l IH]; intros Hid Hnm Hfree; cbn [map]; [constructor|].
  cbn [map] in Hid, Hnm. cbn [existsb] in Hfree.
  apply orb_false_iff in Hfree as [Ha Hl].
  inversion Hid as [|? ? Hia Hidl]; subst. inversion Hnm as [|? ? Hna Hnml]; subst.
  destruct (has_id cid a) eqn:Ea.
  - apply has_id_true in Ea. subst cid.
    rewrite map_no_match by now apply not_In_existsb_id.
    cbn [name]. constructor; [|exact Hnml].
    intros Hin. apply in_map_iff in Hin as (c & Hc & Hin).
    pose proof (existsb_false_In _ _ c Hl Hin) as Hf. cbn beta in Hf.
    apply andb_false_iff in Hf as [Hf|Hf].
    + apply has_name_false in Hf. contradiction.
    + apply negb_false_iff, has_id_true in Hf. apply Hia.
      rewrite <- Hf. now apply in_map.
  - constructor; [|now apply IH].
    rewrite andb_true_r in Ha. apply has_name_false in Ha.
    intros Hin. apply in_map_iff in Hin as (c' & Hc' & Hin).
    apply in_map_iff in Hin as (c & Hc & Hin). subst c'.
    destruct (has_id cid c); cbn [name] in Hc'.
    + congruence.
    + apply Hna. rewrite <- Hc'. now apply in_map.
Qed.

(** Every single write keeps ids and names distinct. *)
Lemma flush1_unique (tbl tbl' : list Credential) (p : pending) :
  unique_table tbl -> flush1 tbl p = Ok tbl' -> unique_table tbl'.
Proof.
  intros (Hid & Hnm) Hfl. destruct p as [n b|cid nn b|cid].
  - unfold flush1 in Hfl.
    destruct (existsb (has_name n) tbl) eqn:E; [discriminate|].
    apply Ok_inj in Hfl. subst tbl'. split; rewrite map_app; cbn [map id name].
    + apply NoDup_rev in Hid.
      rewrite <- (rev_involutive (map id tbl ++ [next_id tbl])).
      apply NoDup_rev. rewrite rev_app_distr. cbn [rev app].
      constructor; [|exact Hid]. rewrite <- in_rev. apply next_id_fresh.
    + apply NoDup_rev in Hnm.
      rewrite <- (rev_involutive (map name tbl ++ [n])).
      apply NoDup_rev. rewrite rev_app_distr. cbn [rev app].
      constructor; [|exact Hnm]. rewrite <- in_rev.
      intros Hin. apply in_map_iff in Hin as (c & Hc & Hin).
      pose proof (existsb_false_In _ _ c E Hin) as Hf.
      apply has_name_false in Hf. contradiction.
  - pose proof (flush1_SetAttrs _ _ _ _ _ Hfl) as Htbl. subst tbl'.
    split; [now rewrite map_id_set_attrs|].
    destruct nn as [n|].
    + unfold flush1 in Hfl.
      destruct (existsb (has_id cid) tbl) eqn:Ei; cbn [negb] in Hfl.
      * fold (name_taken cid n tbl) in Hfl.
        destruct (name_taken cid n tbl) eqn:Et; [discriminate|].
        now apply rename_keeps_names.
      * now rewrite map_no_match.
    + rewrite map_map.
      replace (map (fun c => name (if has_id cid c
                                   then mkCredential (id c) (name c) b else c)) tbl)
        with (map name tbl); [exact Hnm|].
      apply map_ext. intros c. now destruct (has_id cid c).
  - cbn [flush1] in Hfl. apply Ok_inj in Hfl. subst tbl'.
    split; now apply NoDup_map_filter.
Qed.

(** X1.  Ids and names stay distinct: in a table whose ids and names are
    distinct, any sequence of calls (insert, get, get_all, update, delete,
    changes of password), succeeding or raising, leaves a table whose ids and
    names are distinct. *)
Theorem session_keeps_keys_unique (L : Lib) (cs : list command) (w : World) :
  unique_table (table w) -> unique_table (table (run cs w)).
Proof.
  apply (run_keeps L unique_table). intros tbl p tbl'. apply flush1_unique.
Qed.

Lemma session_keeps_keys_unique_witness :
  unique_table
    (table (run (L := Ref.lib)
              [Insert "a" github_items; Insert "a" github_items;
               Insert "b" github_items; Update (ByName "a") "b" github_items;
               Update (ByName "b") "c" github_items; Delete (ByName "a")]
              (Ref.fresh_world "pw"))).
Proof.
  apply (session_keeps_keys_unique Ref.lib). split; constructor.
Defined.

(* ===================================================================== *)
(** ** Insert, then look up *)
(* ===================================================================== *)

Lemma find_snoc {A} (f : A -> bool) (l : list A) (a : A) :
  find f (l ++ [a]) =
    match find f l with
    | Some x => Some x
    | None => if f a then Some a else None
    end.
Proof.
  induction l as [|x l IH]; cbn [app find]; [reflexivity|].
  now destruct (f x).
Qed.

(** X2.  Insert, then look up (Scenario A of the specification, from the
    code): after [insert] of a name that was not present, [exists] of that name
    is true and [get] returns the new record, with the id the table gave it
    and the items that were inserted; lookups of every other name answer what
    they answered before. *)
Theorem insert_then_get (L : Lib) (w : World) (n : string) (m : Items) :
  kdf_length L -> cbc_length L -> cbc_inverse L ->
  utf8_roundtrip L -> json_roundtrip L ->
  NoDup (map fst m) ->
  result (Database.exists_ n) w = Ok false ->
  let w' := after (Database.insert n m) w in
  result (Database.exists_ n) w' = Ok true /\
  (exists c,
     result (Database.get n) w' = Ok (Some (mkLoaded c (dict_of m))) /\
     name c = n /\ id c = next_id (table w) /\ In c (table w')) /\
  (forall n', n' <> n ->
     result (Database.get n') w' = result (Database.get n') w /\
     result (Database.exists_ n') w' = result (Database.exists_ n') w).
Proof.
  intros Hkdf Hlen Hinv Hutf Hjson Hm Hex w'. subst w'.
  unfold result in Hex. rewrite exists_run in Hex. apply Ok_inj in Hex.
  unfold after. rewrite insert_run, Hex by assumption. cbn [snd].
  set (blob := blob_of _ _ _ _).
  set (c := mkCredential (next_id (table w)) n blob).
  assert (Hnone : find (has_name n) (table w) = None).
  { rewrite existsb_find in Hex.
    destruct (find (has_name n) (table w)); [discriminate|reflexivity]. }
  assert (Hself : has_name n c = true) by now apply has_name_true.
  unfold result. rewrite !exists_run, !get_run. cbn [fst table _pswd].
  rewrite existsb_app. cbn [existsb]. rewrite Hex, Hself. cbn [orb].
  split; [reflexivity|]. split.
  - exists c. rewrite find_snoc, Hnone, Hself. cbn [items c]. unfold blob.
    rewrite decrypt_blob_of by (assumption || apply window_length).
    rewrite plaintext_of_dict, Hjson by assumption. cbn [rbind].
    repeat split. apply in_or_app. right. now left.
  - intros n' Hn'.
    assert (Hother : has_name n' c = false) by (apply has_name_false; cbn; congruence).
    rewrite !exists_run, !get_run. cbn [fst table _pswd].
    rewrite find_snoc, existsb_app. cbn [existsb]. rewrite !Hother, !orb_false_r.
    split; [|reflexivity]. now destruct (find (has_name n') (table w)).
Qed.

Lemma insert_then_get_witness :
  let w' := after (Database.insert (L := Ref.lib) "GitHub" github_items)
              (Ref.fresh_world "pw") in
  result (Database.exists_ "GitHub") w' = Ok true /\
  exists c,
    result (Database.get (L := Ref.lib) "GitHub") w'
      = Ok (Some (mkLoaded c (dict_of github_items))) /\
    name c = "GitHub"%string /\ id c = 1%Z.
Proof.
  cbv zeta.
  destruct (insert_then_get Ref.lib (Ref.fresh_world "pw") "GitHub" github_items
              ref_kdf_length ref_cbc_length ref_cbc_inverse ref_utf8_roundtrip
              ref_json_roundtrip github_items_nodup eq_refl)
    as (Hex & (c & Hget & Hn & Hi & _) & _).
  split; [exact Hex|]. exists c. repeat split; assumption.
Defined.

(* ===================================================================== *)
(** ** Delete and update by name *)
(* ===================================================================== *)

Lemma NoDup_map_eq {A B} (f : A -> B) (l : list A) (a b : A) :
  NoDup (map f l) -> In a l -> In b l -> f a = f b -> a = b.
Proof.
  induction l as [|x l IH]; cbn [map]; intros Hnd Ha Hb Hf; [contradiction|].
  inversion Hnd as [|? ? Hx Hl]; subst.
  destruct Ha as [->|Ha], Hb as [->|Hb].
  - reflexivity.
  - exfalso. apply Hx. rewrite Hf. now apply in_map.
  - exfalso. apply Hx. rewrite <- Hf. now apply in_map.
  - now apply IH.
Qed.

Lemma filter_one_id (l : list Credential) (c : Credential) :
  NoDup (map id l) -> In c l ->
  S (length (filter (fun c0 => negb (has_id (id c) c0)) l)) = length l.
Proof.
  induction l as [|x l IH]; cbn [map]; intros Hnd Hin; [contradiction|].
  inversion Hnd as [|? ? Hx Hl]; subst. cbn [filter length].
  destruct (has_id (id c) x) eqn:E; cbn [negb length].
  - apply has_id_true in E. f_equal.
    assert (Hnone : existsb (has_id (id c)) l = false)
      by (apply not_In_existsb_id; now rewrite <- E).
    clear -Hnone. induction l as [|y l IH]; [reflexivity|].
    cbn [existsb] in Hnone. apply orb_false_iff in Hnone as [Hy Hl].
    cbn [filter]. rewrite Hy. cbn [negb length]. now rewrite IH.
  - f_equal. apply IH; [exact Hl|].
    destruct Hin as [->|Hin]; [|exact Hin].
    unfold has_id in E. now rewrite Z.eqb_refl in E.
Qed.

Lemma find_none_existsb {A} (f : A -> bool) (l : list A) :
  existsb f l = false -> find f l = None.
Proof.
  rewrite existsb_find. now destruct (find f l).
Qed.

(** After the row of a name is deleted, no row has that name. *)
Lemma name_gone (tbl : list Credential) (n : string) (c : Credential) :
  NoDup (map name tbl) -> In c tbl -> name c = n ->
  existsb (has_name n) (filter (fun c0 => negb (has_id (id c) c0)) tbl) = false.
Proof.
  intros Hnm Hin Hn.
  destruct (existsb _ _) eqn:E; [|reflexivity].
  apply existsb_exists in E as (c0 & Hc0 & Hn0).
  apply filter_In in Hc0 as [Hc0 Hid]. apply has_name_true in Hn0.
  assert (c0 = c) by (eapply NoDup_map_eq; [exact Hnm| | |]; congruence).
  subst c0. unfold has_id in Hid. now rewrite Z.eqb_refl in Hid.
Qed.

(** X3.  Delete, then look up (Scenario E of the specification, from the
    code): in a table with distinct ids and names, [delete] of the name of a
    record whose payload decrypts succeeds and removes exactly that record:
    the table is the old one without the row of its id, one row shorter;
    [exists] of the name is false and [get] of it returns [None]; session
    password, password file and entropy cursor are as before. *)
Theorem delete_then_gone (L : Lib) (w : World) (n : string) (c : Credential) :
  unique_table (table w) ->
  find (has_name n) (table w) = Some c ->
  readable w c ->
  let w' := after (Database.delete (ByName n)) w in
  result (Database.delete (ByName n)) w = Ok tt /\
  w' = mkWorld (_pswd w)
         (filter (fun c0 => negb (has_id (id c) c0)) (table w))
         (password_file w) (urandom w) (cursor w) /\
  S (length (table w')) = length (table w) /\
  (forall c0, In c0 (table w') <-> In c0 (table w) /\ c0 <> c) /\
  result (Database.exists_ n) w' = Ok false /\
  result (Database.get n) w' = Ok None.
Proof.
  intros (Hid & Hnm) Hfind (v & Hv) w'. subst w'.
  apply find_some in Hfind as Hc. destruct Hc as (Hin & Hname).
  apply has_name_true in Hname.
  unfold result in Hv. rewrite decrypt_run in Hv. cbn [fst] in Hv.
  assert (Hrun : Database.delete (ByName n) w =
                 (Ok tt,
                  mkWorld (_pswd w)
                    (filter (fun c0 => negb (has_id (id c) c0)) (table w))
                    (password_file w) (urandom w) (cursor w))).
  { rewrite delete_run, resolve_run, Hfind, Hv. reflexivity. }
  unfold result at 1. unfold after. rewrite Hrun. cbn [fst snd table].
  split; [reflexivity|]. split; [reflexivity|].
  split; [now apply filter_one_id|]. split.
  - intros c0. rewrite filter_In. split.
    + intros (H0 & Hne). split; [exact H0|]. intros ->.
      unfold has_id in Hne. now rewrite Z.eqb_refl in Hne.
    + intros (H0 & Hne). split; [exact H0|].
      apply negb_true_iff, has_id_false. intros Heq. apply Hne.
      eapply NoDup_map_eq; [exact Hid| | |]; assumption.
  - unfold result. rewrite exists_run, get_run. cbn [fst table].
    rewrite (name_gone (table w) n c Hnm Hin Hname).
    rewrite find_none_existsb by now apply name_gone.
    split; reflexivity.
Qed.

Lemma delete_then_gone_witness :
  let w' := after (Database.delete (L := Ref.lib) (ByName "GitHub")) github_world in
  result (Database.delete (L := Ref.lib) (ByName "GitHub")) github_world = Ok tt /\
  table w' = [] /\
  result (Database.exists_ "GitHub") w' = Ok false /\
  result (Database.get (L := Ref.lib) "GitHub") w' = Ok None.
Proof.
  cbv zeta.
  assert (Hu : unique_table (table github_world)).
  { change (table github_world) with [mkCredential 1 "GitHub" github_blob].
    split; (constructor; [intros []|constructor]). }
  assert (Hr : readable (L := Ref.lib) github_world
                 (mkCredential 1 "GitHub" github_blob))
    by (exists (dict_of github_items); reflexivity).
  destruct (delete_then_gone Ref.lib github_world "GitHub"
              (mkCredential 1 "GitHub" github_blob) Hu eq_refl Hr)
    as (Hres & Hw & _ & _ & Hex & Hget).
  split; [exact Hres|]. split; [rewrite Hw; reflexivity|].
  split; assumption.
Defined.

(** One payload that does not decrypt makes the whole listing fail. *)
Lemma load_all_raises (L : Lib) (p : string) (tbl : list Credential)
      (c : Credential) (e : exn) :
  In c tbl -> decrypt_with p (items c) true = Raise e ->
  exists e', load_all p tbl = Raise e'.
Proof.
  induction tbl as [|a l IH]; intros Hin He; [contradiction|].
  cbn [load_all].
  destruct (decrypt_with p (items a) true) as [v|e0] eqn:Ea; cbn [rbind];
    [|now exists e0].
  destruct Hin as [->|Hin]; [congruence|].
  destruct (IH Hin He) as (e' & He'). rewrite He'. now exists e'.
Qed.

(** X4.  Every read decrypts: when the payload of the record of a name does
    not decrypt under the session password, [get], [update] and [delete] of
    that name raise the decryption error, a [ValueError], and change nothing;
    [get_all] and [change_pswd] raise too and change nothing.  The record can
    be neither read, repaired nor removed by name, and no other record can be
    listed or rotated.  Only [delete] of the record object itself, which does
    not decrypt, removes it. *)
Theorem by_name_needs_readable
  (L : Lib) (w : World) (n new_name new_pswd : string) (new_items : Items)
  (c : Credential) (e : exn) :
  find (has_name n) (table w) = Some c ->
  result (Database._decrypt (items c) true) w = Raise e ->
  isinstance_ValueError e = true /\
  Database.get n w = (Raise e, w) /\
  Database.update (ByName n) new_name new_items w = (Raise e, w) /\
  Database.delete (ByName n) w = (Raise e, w) /\
  (exists e', Database.get_all w = (Raise e', w) /\
              Database.change_pswd new_pswd w = (Raise e', w)) /\
  Database.delete (ByRef c) w =
    (Ok tt, mkWorld (_pswd w)
              (filter (fun c0 => negb (has_id (id c) c0)) (table w))
              (password_file w) (urandom w) (cursor w)).
Proof.
  intros Hfind He. unfold result in He. rewrite decrypt_run in He. cbn [fst] in He.
  split; [eapply decrypt_with_error; exact He|].
  split; [rewrite get_run, Hfind, He; reflexivity|].
  split; [rewrite update_run, resolve_run, Hfind, He; reflexivity|].
  split; [rewrite delete_run, resolve_run, Hfind, He; reflexivity|].
  split; [|rewrite delete_run, resolve_run; reflexivity].
  apply find_some in Hfind as (Hin & _).
  destruct (load_all_raises L _ _ _ _ Hin He) as (e' & He').
  exists e'. rewrite change_pswd_run, get_all_result, He'.
  split; [|reflexivity].
  rewrite (surjective_pairing (Database.get_all w)).
  fold (result Database.get_all w). fold (after Database.get_all w).
  now rewrite get_all_result, get_all_run, He'.
Qed.

Lemma by_name_needs_readable_witness :
  Database.delete (L := Ref.lib) (ByName "GitHub") damaged_world
    = (Raise ValueError, damaged_world) /\
  Database.update (L := Ref.lib) (ByName "GitHub") "GitHub" github_items damaged_world
    = (Raise ValueError, damaged_world) /\
  table (after (Database.delete (L := Ref.lib)
                  (ByRef (mkCredential 1 "GitHub" [x00; x01]))) damaged_world) = [].
Proof.
  destruct (by_name_needs_readable Ref.lib damaged_world "GitHub" "GitHub" "new-pw"
              github_items (mkCredential 1 "GitHub" [x00; x01]) ValueError
              eq_refl eq_refl) as (_ & _ & Hu & Hd & _ & Hr).
  split; [exact Hd|]. split; [exact Hu|].
  unfold after. rewrite Hr. reflexivity.
Defined.

(* ===================================================================== *)
(** ** Update by name: the clash of names and the round trip *)
(* ===================================================================== *)

(** With distinct ids and names, a new name is taken by another row exactly
    when it differs from the name of the row and some row has it. *)
Lemma name_taken_spec (tbl : list Credential) (c : Credential) (nn : string) :
  unique_table tbl -> In c tbl ->
  name_taken (id c) nn tbl = true <->
  nn <> name c /\ existsb (has_name nn) tbl = true.
Proof.
  intros (Hid & Hnm) Hin. unfold name_taken. split.
  - intros H. apply existsb_exists in H as (x & Hx & Hb).
    apply andb_true_iff in Hb as [Hn Hi].
    apply has_name_true in Hn. apply negb_true_iff, has_id_false in Hi.
    split.
    + intros ->. apply Hi. f_equal.
      now apply (NoDup_map_eq name tbl x c Hnm Hx Hin).
    + apply existsb_exists. exists x. split; [exact Hx|now apply has_name_true].
  - intros [Hne H]. apply existsb_exists in H as (x & Hx & Hn).
    apply existsb_exists. exists x. split; [exact Hx|].
    rewrite Hn. cbn [andb]. apply negb_true_iff, has_id_false.
    intros Hi. apply has_name_true in Hn.
    assert (x = c) by now apply (NoDup_map_eq id tbl x c Hid Hx Hin).
    subst x. congruence.
Qed.

(** [update] of the name of a record that decrypts: the encryption draws 32
    bytes, then the commit either clashes or rewrites the rows of its id. *)
Lemma update_by_name_run (L : Lib) (w : World) (n nn : string) (ni : Items)
      (c : Credential) :
  kdf_length L ->
  find (has_name n) (table w) = Some c ->
  readable w c ->
  Database.update (ByName n) nn ni w =
    let blob := blob_of (_pswd w) (window (urandom w) (cursor w) 16)
                  (window (urandom w) (cursor w + 16) 16) (dict_of ni) in
    if name_taken (id c) nn (table w) then (Raise IntegrityError, drawn 32 w)
    else (Ok tt,
          mkWorld (_pswd w)
            (map (fun c0 => if has_id (id c) c0
                            then mkCredential (id c0) nn blob else c0) (table w))
            (password_file w) (urandom w) (cursor w + 32)).
Proof.
  intros Hkdf Hfind (v & Hv).
  unfold result in Hv. rewrite decrypt_run in Hv. cbn [fst] in Hv.
  rewrite update_run, resolve_run, Hfind, Hv. cbn [fst rbind].
  rewrite encrypt_run by assumption. cbv zeta.
  apply find_some in Hfind as (Hin & _).
  assert (Hhas : existsb (has_id (id c)) (table w) = true).
  { apply existsb_exists. exists c. split; [exact Hin|now apply has_id_true]. }
  unfold commit, drawn. cbn [table flush flush1 rbind].
  rewrite Hhas. cbn [negb]. fold (name_taken (id c) nn (table w)).
  destruct (name_taken (id c) nn (table w)); reflexivity.
Qed.

(** X5.  Renaming onto another record's name: with distinct ids and names,
    [update] of the name of a record that decrypts, to a different name that
    another record already has, raises [IntegrityError]; no row is changed,
    but the encryption of the new items was made first and its 32 bytes of
    entropy are spent. *)
Theorem update_to_taken_name
  (L : Lib) (w : World) (n new_name : string) (new_items : Items)
  (c : Credential) :
  kdf_length L ->
  unique_table (table w) ->
  find (has_name n) (table w) = Some c ->
  readable w c ->
  new_name <> n ->
  result (Database.exists_ new_name) w = Ok true ->
  Database.update (ByName n) new_name new_items w
    = (Raise IntegrityError, drawn 32 w).
Proof.
  intros Hkdf Huniq Hfind Hread Hne Hex.
  rewrite (update_by_name_run L w n new_name new_items c) by assumption.
  cbv zeta.
  apply find_some in Hfind as (Hin & Hn). apply has_name_true in Hn.
  unfold result in Hex. rewrite exists_run in Hex. apply Ok_inj in Hex.
  assert (Ht : name_taken (id c) new_name (table w) = true).
  { apply name_taken_spec; [assumption..|]. split; congruence. }
  now rewrite Ht.
Qed.

Lemma find_renamed (tbl : list Credential) (cid : Z) (nn : string) (b : bytes) :
  existsb (has_id cid) tbl = true ->
  name_taken cid nn tbl = false ->
  find (has_name nn)
    (map (fun c0 => if has_id cid c0 then mkCredential (id c0) nn b else c0) tbl)
  = Some (mkCredential cid nn b).
Proof.
  unfold name_taken.
  induction tbl as [|x l IH]; cbn [existsb map find]; [discriminate|].
  intros Hhas Hfree. apply orb_false_iff in Hfree as [Hx Hl].
  destruct (has_id cid x) eqn:Ei.
  - apply has_id_true in Ei. subst cid.
    assert (Hself : has_name nn (mkCredential (id x) nn b) = true)
      by now apply has_name_true.
    now rewrite Hself.
  - cbn [negb] in Hx. rewrite andb_true_r in Hx. rewrite Hx.
    cbn [orb] in Hhas. now apply IH.
Qed.

Lemma old_name_gone (tbl : list Credential) (c : Credential) (nn : string)
      (b : bytes) :
  NoDup (map name tbl) -> In c tbl -> nn <> name c ->
  existsb (has_name (name c))
    (map (fun c0 => if has_id (id c) c0 then mkCredential (id c0) nn b else c0) tbl)
  = false.
Proof.
  intros Hnm Hin Hne.
  destruct (existsb _ _) eqn:E; [|reflexivity].
  apply existsb_exists in E as (y & Hy & Hn).
  apply in_map_iff in Hy as (x & <- & Hx).
  destruct (has_id (id c) x) eqn:Ei.
  - apply has_name_true in Hn. cbn [name] in Hn. congruence.
  - apply has_name_true in Hn.
    assert (x = c) by now apply (NoDup_map_eq name tbl x c Hnm Hx Hin).
    subst x. unfold has_id in Ei. now rewrite Z.eqb_refl in Ei.
Qed.

Lemma find_other_name (tbl : list Credential) (c : Credential) (nn n' : string)
      (b : bytes) :
  NoDup (map id tbl) -> In c tbl -> n' <> name c -> n' <> nn ->
  find (has_name n')
    (map (fun c0 => if has_id (id c) c0 then mkCredential (id c0) nn b else c0) tbl)
  = find (has_name n') tbl.
Proof.
  intros Hid Hin Hn Hnn.
  assert (Hrow : forall x, In x tbl -> has_id (id c) x = true -> x = c).
  { intros x Hx Hi. apply has_id_true in Hi.
    now apply (NoDup_map_eq id tbl x c Hid Hx Hin). }
  clear Hid Hin. induction tbl as [|x l IH]; cbn [map find]; [reflexivity|].
  destruct (has_id (id c) x) eqn:Ei.
  - assert (x = c) by (apply Hrow; [now left|exact Ei]). subst x.
    assert (H1 : has_name n' (mkCredential (id c) nn b) = false)
      by (apply has_name_false; cbn [name]; congruence).
    assert (H2 : has_name n' c = false) by (apply has_name_false; congruence).
    rewrite H1, H2. apply IH. intros y Hy. apply Hrow. now right.
  - destruct (has_name n' x); [reflexivity|].
    apply IH. intros y Hy. apply Hrow. now right.
Qed.

(** X6.  Update, then look up (Scenario D of the specification, from the
    code): with distinct ids and names, [update] of the name of a record that
    decrypts, to its own name or to a name no record has, succeeds; afterwards
    [get] of the new name returns the record with the id it had and exactly
    the new items, the old name (when it differs) is gone, the number of
    records is the same, and [get] of every other name answers as before. *)
Theorem update_then_get
  (L : Lib) (w : World) (n new_name : string) (new_items : Items)
  (c : Credential) :
  kdf_length L -> cbc_length L -> cbc_inverse L ->
  utf8_roundtrip L -> json_roundtrip L ->
  unique_table (table w) ->
  NoDup (map fst new_items) ->
  find (has_name n) (table w) = Some c ->
  readable w c ->
  new_name = n \/ result (Database.exists_ new_name) w = Ok false ->
  let w' := after (Database.update (ByName n) new_name new_items) w in
  result (Database.update (ByName n) new_name new_items) w = Ok tt /\
  (exists blob,
     result (Database.get new_name) w'
       = Ok (Some (mkLoaded (mkCredential (id c) new_name blob)
                     (dict_of new_items)))) /\
  (new_name <> n ->
     result (Database.exists_ n) w' = Ok false /\
     result (Database.get n) w' = Ok None) /\
  length (table w') = length (table w) /\
  (forall n', n' <> n -> n' <> new_name ->
     result (Database.get n') w' = result (Database.get n') w).
Proof.
  intros Hkdf Hlen Hinv Hutf Hjson Huniq Hkeys Hfind Hread Hfree w'. subst w'.
  unfold result, after.
  rewrite (update_by_name_run L w n new_name new_items c) by assumption.
  cbv zeta.
  apply find_some in Hfind as (Hin & Hn). apply has_name_true in Hn.
  assert (Ht : name_taken (id c) new_name (table w) = false).
  { destruct (name_taken (id c) new_name (table w)) eqn:E; [|reflexivity].
    apply name_taken_spec in E as [Hne Hex]; [|assumption..].
    destruct Hfree as [->|Hf]; [congruence|].
    unfold result in Hf. rewrite exists_run in Hf. apply Ok_inj in Hf.
    congruence. }
  rewrite Ht. cbn [fst snd].
  set (blob := blob_of _ _ _ _).
  assert (Hhas : existsb (has_id (id c)) (table w) = true).
  { apply existsb_exists. exists c. split; [exact Hin|now apply has_id_true]. }
  destruct Huniq as (Hid & Hnm).
  split; [reflexivity|]. split; [|split; [|split]].
  - exists blob. rewrite get_run. cbn [fst table _pswd].
    rewrite find_renamed by assumption. cbn [items]. unfold blob.
    rewrite decrypt_blob_of by (assumption || apply window_length).
    rewrite plaintext_of_dict, Hjson by assumption. reflexivity.
  - intros Hne. rewrite exists_run, get_run. cbn [fst table _pswd].
    subst n. rewrite old_name_gone by congruence.
    split; [reflexivity|].
    rewrite (find_none_existsb _ _ (old_name_gone _ c new_name blob Hnm Hin
                                      (fun H => Hne H))).
    reflexivity.
  - cbn [table]. apply length_map.
  - intros n' Hn' Hnn'. rewrite !get_run. cbn [fst table _pswd].
    subst n. now rewrite find_other_name by assumption.
Qed.

Lemma two_records_unique : unique_table (table two_records).
Proof.
  apply (run_keeps Ref.lib unique_table).
  - intros tbl p tbl'. apply flush1_unique.
  - split; constructor.
Defined.

Lemma update_to_taken_name_witness :
  Database.update (L := Ref.lib) (ByName "GitHub") "GitLab" github_items
    two_records
  = (Raise IntegrityError, drawn 32 two_records).
Proof.
  eapply (update_to_taken_name Ref.lib two_records "GitHub" "GitLab").
  - exact ref_kdf_length.
  - exact two_records_unique.
  - vm_compute. reflexivity.
  - exists (dict_of github_items). vm_compute. reflexivity.
  - discriminate.
  - vm_compute. reflexivity.
Defined.

Lemma update_then_get_witness :
  let w' := after (Database.update (L := Ref.lib) (ByName "GitHub") "Hub"
                     [("token"%string, "t0"%string)]) two_records in
  result (Database.update (L := Ref.lib) (ByName "GitHub") "Hub"
            [("token"%string, "t0"%string)]) two_records = Ok tt /\
  (exists blob,
     result (Database.get (L := Ref.lib) "Hub") w'
       = Ok (Some (mkLoaded (mkCredential 1 "Hub" blob)
                     (dict_of [("token"%string, "t0"%string)])))) /\
  result (Database.exists_ "GitHub") w' = Ok false /\
  length (table w') = 2.
Proof.
  cbv zeta.
  assert (Hkeys : NoDup (map fst [("token"%string, "t0"%string)]))
    by (constructor; [intros []|constructor]).
  assert (Hread : readable (L := Ref.lib) two_records
                    (mkCredential 1 "GitHub" github_blob))
    by (exists (dict_of github_items); vm_compute; reflexivity).
  destruct (update_then_get Ref.lib two_records "GitHub" "Hub"
              [("token"%string, "t0"%string)]
              (mkCredential 1 "GitHub" github_blob)
              ref_kdf_length ref_cbc_length ref_cbc_inverse ref_utf8_roundtrip
              ref_json_roundtrip two_records_unique Hkeys eq_refl Hread
              (or_intror eq_refl))
    as (Hok & Hget & Hold & Hlen & _).
  split; [exact Hok|]. split; [exact Hget|].
  split; [apply Hold; discriminate|]. exact Hlen.
Defined.

(* ===================================================================== *)
(** ** The listing and the change of password: all or nothing *)
(* ===================================================================== *)

Lemma load_all_rows (L : Lib) (p : string) (tbl : list Credential)
      (creds : list Loaded) :
  load_all p tbl = Ok creds ->
  map row creds = tbl /\
  Forall (fun l => decrypt_with p (items (row l)) true = Ok (items_dict l)) creds.
Proof.
  revert creds. induction tbl as [|c l IH]; cbn [load_all]; intros creds H.
  - apply Ok_inj in H. subst creds. split; [reflexivity|constructor].
  - destruct (decrypt_with p (items c) true) as [v|e] eqn:Ec; cbn [rbind] in H;
      [|discriminate].
    destruct (load_all p l) as [vs|e]; cbn [rbind] in H; [|discriminate].
    apply Ok_inj in H. subst creds. destruct (IH vs eq_refl) as (Hrow & Hall).
    cbn [map row]. rewrite Hrow. split; [reflexivity|].
    constructor; [exact Ec|exact Hall].
Qed.

Lemma load_all_error (L : Lib) (p : string) (tbl : list Credential) (e : exn) :
  load_all p tbl = Raise e ->
  exists c, In c tbl /\ decrypt_with p (items c) true = Raise e.
Proof.
  induction tbl as [|c l IH]; cbn [load_all]; intros H; [discriminate|].
  destruct (decrypt_with p (items c) true) as [v|e0] eqn:Ec; cbn [rbind] in H.
  - destruct (load_all p l) as [vs|e1]; cbn [rbind] in H; [discriminate|].
    destruct (IH H) as (c0 & Hin & Hc0). exists c0. split; [now right|exact Hc0].
  - exists c. split; [now left|congruence].
Qed.

Lemma load_all_total (L : Lib) (p : string) (tbl : list Credential) :
  (forall c, In c tbl -> exists v, decrypt_with p (items c) true = Ok v) ->
  exists creds, load_all p tbl = Ok creds.
Proof.
  induction tbl as [|c l IH]; intros Hall; [now exists []|].
  destruct (Hall c (or_introl eq_refl)) as (v & Hv).
  destruct IH as (vs & Hvs); [intros c0 Hc0; apply Hall; now right|].
  exists (mkLoaded c v :: vs). cbn [load_all]. now rewrite Hv, Hvs.
Qed.

(** Looking a name up in the listing is [get] of that name. *)
Lemma load_all_find (L : Lib) (p : string) (tbl : list Credential)
      (creds : list Loaded) (n : string) :
  load_all p tbl = Ok creds ->
  match find (has_name n) tbl with
  | Some c => rbind (decrypt_with p (items c) true)
                (fun v => Ok (Some (mkLoaded c v)))
  | None => Ok None
  end = Ok (find (fun l => has_name n (row l)) creds).
Proof.
  revert creds. induction tbl as [|c l IH]; cbn [load_all]; intros creds H.
  - apply Ok_inj in H. now subst creds.
  - destruct (decrypt_with p (items c) true) as [v|e] eqn:Ec; cbn [rbind] in H;
      [|discriminate].
    destruct (load_all p l) as [vs|e]; cbn [rbind] in H; [|discriminate].
    apply Ok_inj in H. subst creds. cbn [find row].
    destruct (has_name n c); [now rewrite Ec|]. now apply IH.
Qed.

(** X7.  The listing is all or nothing and agrees with the single lookup:
    [get_all] never changes the world; when it returns, it returns every row
    of the table, in order, each with the items its payload decrypts to, and
    looking a name up in the returned list gives what [get] of that name
    returns; when it raises, the exception is the decryption error of some
    row; and it returns whenever every payload decrypts. *)
Theorem get_all_all_or_nothing (L : Lib) (w : World) :
  after Database.get_all w = w /\
  (forall creds, result Database.get_all w = Ok creds ->
     map row creds = table w /\
     Forall (fun l => result (Database._decrypt (items (row l)) true) w
                      = Ok (items_dict l)) creds /\
     forall n, result (Database.get n) w
               = Ok (find (fun l => has_name n (row l)) creds)) /\
  (forall e, result Database.get_all w = Raise e ->
     exists c, In c (table w) /\
               result (Database._decrypt (items c) true) w = Raise e) /\
  ((forall c, In c (table w) -> readable w c) ->
   exists creds, result Database.get_all w = Ok creds).
Proof.
  split; [apply get_all_run|]. rewrite get_all_result.
  split; [|split].
  - intros creds H. destruct (load_all_rows L _ _ _ H) as (Hrow & Hall).
    split; [exact Hrow|]. split.
    + eapply Forall_impl; [|exact Hall]. intros l Hl.
      unfold result. now rewrite decrypt_run.
    + intros n. unfold result. rewrite get_run. cbn [fst].
      now apply load_all_find.
  - intros e H. destruct (load_all_error L _ _ _ H) as (c & Hin & Hc).
    exists c. split; [exact Hin|]. unfold result. now rewrite decrypt_run.
  - intros Hall. apply load_all_total. intros c Hc.
    destruct (Hall c Hc) as (v & Hv). exists v.
    unfold result in Hv. now rewrite decrypt_run in Hv.
Qed.

Lemma get_all_all_or_nothing_witness :
  exists l1 l2,
    result (Database.get_all (L := Ref.lib)) two_records = Ok [l1; l2] /\
    result (Database.get (L := Ref.lib) "GitLab") two_records = Ok (Some l2) /\
    items_dict l2 = dict_of github_items.
Proof.
  destruct (get_all_all_or_nothing Ref.lib two_records) as (_ & Hok & _ & _).
  destruct (result (Database.get_all (L := Ref.lib)) two_records)
    as [[|l1 [|l2 [|l3 creds]]]|e] eqn:E; try (vm_compute in E; discriminate).
  destruct (Hok _ eq_refl) as (Hrow & _ & Hget).
  exists l1, l2. split; [reflexivity|].
  specialize (Hget "GitLab"%string). rewrite Hget.
  vm_compute in E. apply Ok_inj in E. injection E as <- <-.
  split; reflexivity.
Defined.




(* ===================================================================== *)
(** ** Stripping *)
(* ===================================================================== *)

Lemma lstrip_head (s : string) :
  Str.lstrip s = EmptyString \/
  exists c r, Str.lstrip s = String c r /\ Str.isspace c = false.
Proof.
  induction s as [|c s IH]; cbn [Str.lstrip]; [now left|].
  destruct (Str.isspace c) eqn:E; [exact IH|].
  right. now exists c, s.
Qed.

Lemma rstrip_head (c : ascii) (s : string) :
  Str.isspace c = false -> exists r, Str.rstrip (String c s) = String c r.
Proof.
  intros Hc. cbn [Str.rstrip]. rewrite Hc.
  destruct (Str.rstrip s) as [|d r]; [now exists EmptyString|now exists (String d r)].
Qed.

Lemma rstrip_idem (s : string) : Str.rstrip (Str.rstrip s) = Str.rstrip s.
Proof.
  induction s as [|c s IH]; [reflexivity|]. cbn [Str.rstrip].
  destruct (Str.rstrip s) as [|d r] eqn:E.
  - destruct (Str.isspace c) eqn:Ec; [reflexivity|].
    cbn [Str.rstrip]. now rewrite Ec.
  - change (Str.rstrip (String c (String d r))) with
      (match Str.rstrip (String d r) with
       | EmptyString => if Str.isspace c then EmptyString else String c EmptyString
       | r0 => String c r0
       end).
    now rewrite IH.
Qed.

(** Stripping twice is stripping once. *)
Lemma strip_idem (s : string) : Str.strip (Str.strip s) = Str.strip s.
Proof.
  unfold Str.strip.
  destruct (lstrip_head s) as [H|(c & r & H & Hc)]; rewrite H; [reflexivity|].
  destruct (rstrip_head c r Hc) as (r' & Hr). rewrite Hr.
  cbn [Str.lstrip]. rewrite Hc, <- Hr. apply rstrip_idem.
Qed.

Lemma is_empty_true (s : string) : Str.is_empty s = true <-> s = EmptyString.
Proof. destruct s; cbn; split; congruence. Qed.

(* ===================================================================== *)
(** ** Opening a session *)
(* ===================================================================== *)

Lemma auth_create_pswd_run (L : Lib) (p : string) (w : World) :
  Auth.create_pswd p w =
    (Ok p, mkWorld (_pswd w) (table w)
             (Some (bcrypt_hashpw (str_encode p) (window (urandom w) (cursor w) 16)))
             (urandom w) (cursor w + 16)).
Proof.
  unfold Auth.create_pswd, Auth.write_password_file. unfold_monad. reflexivity.
Qed.

(** What [authenticate_user] returns checks against the password file it
    leaves, and opens the next session too. *)
Lemma authenticate_user_returns (L : Lib) (script : list string) (w w' : World)
      (p : string) :
  bcrypt_verifies L ->
  Login.authenticate_user script w = (Done p, w') ->
  Auth.checks p w' = true /\ Str.strip p = p /\
  _pswd w' = _pswd w /\ table w' = table w /\
  (password_file w <> None -> w' = w) /\
  exists h, password_file w' = Some h /\ bcrypt_checkpw (str_encode p) h = true.
Proof.
  intros Hb. unfold Login.authenticate_user, Auth.checks.
  destruct (password_file w) as [h|] eqn:Ef.
  - unfold Login.verify_user.
    destruct (execute (fun _ => true) script) as [[text rest]|]; [|discriminate].
    destruct (bcrypt_checkpw (str_encode (Str.strip text)) h) eqn:Ec;
      [|discriminate].
    intros [= <- <-]. rewrite Ef, Ec, strip_idem.
    repeat split. now exists h.
  - unfold Login.create_pswd.
    destruct (execute Login.EmptyInputValidator script) as [[text rest]|];
      [|discriminate].
    destruct (execute _ rest) as [?|]; [|discriminate].
    rewrite auth_create_pswd_run. cbn [of_result].
    intros [= <- <-]. cbn [password_file _pswd table]. rewrite Hb, strip_idem.
    repeat split; [intros H; now elim H|].
    eexists. split; [reflexivity|apply Hb].
Qed.

(** X9.  A session opens only under a password the password file verifies:
    when [cli] returns (first run, which creates the password file, or a
    later run, which only reads it), the session password checks against the
    password file, has no surrounding white space, and the table is untouched;
    from then on, every text that strips to that password opens the session
    again, with the same session password and nothing changed. *)
Theorem cli_opens_verified_session
  (L : Lib) (script : list string) (w w' : World) :
  bcrypt_verifies L ->
  Login.cli script w = (Done tt, w') ->
  Auth.checks (_pswd w') w' = true /\
  Str.strip (_pswd w') = _pswd w' /\
  table w' = table w /\
  (password_file w <> None -> password_file w' = password_file w /\
                              cursor w' = cursor w) /\
  forall text more,
    Str.strip text = _pswd w' -> Login.cli (text :: more) w' = (Done tt, w').
Proof.
  intros Hb. unfold Login.cli.
  destruct (Login.authenticate_user script w) as [[p| | |] w1] eqn:E;
    try discriminate.
  destruct (authenticate_user_returns L _ _ _ _ Hb E)
    as (Hchk & Hstrip & _ & Htbl & Hsame & h & Hf & Hh).
  unfold Database.set_pswd. cbn [of_result]. intros [= <-].
  cbn [_pswd table password_file cursor].
  split; [unfold Auth.checks in *; cbn [password_file]; exact Hchk|].
  split; [exact Hstrip|]. split; [exact Htbl|].
  split; [intros Hsome; now rewrite (Hsame Hsome)|].
  intros text more Ht.
  unfold Login.authenticate_user, Login.verify_user.
  cbn [password_file execute]. rewrite Hf, Ht, Hh. reflexivity.
Qed.

Lemma cli_opens_verified_session_witness :
  let w' := snd (Login.cli (L := Ref.lib) [" hunter2 "; "hunter2"]%string
                   (Ref.fresh_world "")) in
  _pswd w' = "hunter2"%string /\
  Login.cli (L := Ref.lib) ["hunter2  "]%string w' = (Done tt, w').
Proof.
  cbv zeta.
  destruct (Login.cli (L := Ref.lib) [" hunter2 "; "hunter2"]%string
              (Ref.fresh_world "")) as [r w'] eqn:E.
  assert (Hr : r = Done tt) by (apply (f_equal fst) in E; vm_compute in E; congruence).
  subst r.
  assert (Hp : _pswd w' = "hunter2"%string)
    by (apply (f_equal snd) in E; cbn [snd] in E; subst w'; vm_compute; reflexivity).
  destruct (cli_opens_verified_session Ref.lib _ _ _ ref_bcrypt_verifies E)
    as (_ & _ & _ & _ & Hnext).
  cbn [snd]. split; [exact Hp|].
  apply Hnext. rewrite Hp. vm_compute. reflexivity.
Defined.

Lemma execute_rejected (validate : string -> bool) (text : string) (n : nat) :
  validate text = false -> execute validate (repeat text n) = None.
Proof.
  intros H. induction n as [|n IH]; cbn [repeat execute]; [reflexivity|].
  now rewrite H.
Qed.

(** X10.  The confirmation is compared with the stripped password, and the
    test for an empty password is made before stripping.  A password typed
    with white space around it passes the first question, but typing the same
    text again, however often, never confirms it: nothing is written.  A
    password of white space only passes the first question too; confirmed by
    an empty text, it makes the empty string the master password, and the
    password file verifies the empty string. *)
Theorem create_pswd_strips_before_confirming
  (L : Lib) (text : string) (w : World) :
  bcrypt_verifies L ->
  Str.is_empty text = false ->
  (Str.strip text <> text ->
   forall n, Login.create_pswd (text :: repeat text n) w = (KeyboardInterrupt, w)) /\
  (Str.strip text = EmptyString ->
   exists w', Login.create_pswd [text; EmptyString] w = (Done EmptyString, w') /\
              Auth.checks EmptyString w' = true).
Proof.
  intros Hb Hne. unfold Login.create_pswd, Login.EmptyInputValidator.
  cbn [execute]. rewrite Hne. cbn [negb]. split.
  - intros Hs n. rewrite execute_rejected; [reflexivity|].
    apply String.eqb_neq. congruence.
  - intros Hs. rewrite Hs. cbn [execute String.eqb].
    rewrite auth_create_pswd_run. cbn [of_result].
    eexists. split; [reflexivity|].
    unfold Auth.checks. cbn [password_file]. apply Hb.
Qed.

Lemma create_pswd_strips_before_confirming_witness :
  Login.create_pswd (L := Ref.lib) [" pw"; " pw"; " pw"]%string (Ref.fresh_world "")
    = (KeyboardInterrupt, Ref.fresh_world "") /\
  exists w', Login.create_pswd (L := Ref.lib) ["  "; ""]%string (Ref.fresh_world "")
               = (Done EmptyString, w').
Proof.
  destruct (create_pswd_strips_before_confirming Ref.lib " pw" (Ref.fresh_world "")
              ref_bcrypt_verifies eq_refl) as (Hrej & _).
  destruct (create_pswd_strips_before_confirming Ref.lib "  " (Ref.fresh_world "")
              ref_bcrypt_verifies eq_refl) as (_ & Hacc).
  split.
  - apply (Hrej ltac:(vm_compute; discriminate) 2).
  - destruct (Hacc eq_refl) as (w' & Hw' & _). now exists w'.
Defined.

(* ===================================================================== *)
(** ** The [add] command *)
(* ===================================================================== *)


Lemma has_key_false (items : Items) (key : string) :
  Utils.has_key items key = false -> ~ In key (map fst items).
Proof.
  unfold Utils.has_key. intros H Hin.
  apply in_map_iff in Hin as (kv & Hk & Hin).
  assert (Hb : (fst kv =? key)%string = false)
    by exact (existsb_false_In _ items kv H Hin).
  apply String.eqb_neq in Hb. congruence.
Qed.

Lemma setitem_new (items : Items) (key value : string) :
  Utils.has_key items key = false ->
  Utils.setitem items key value = items ++ [(key, value)].
Proof.
  unfold Utils.has_key.
  induction items as [|[k v] items IH]; cbn [Utils.setitem existsb fst app];
    [reflexivity|].
  intros H. apply orb_false_iff in H as [Hk Hl]. rewrite Hk. now rewrite IH.
Qed.

Lemma item_key_valid (items : Items) (text : string) :
  Utils.ItemKeyValidator.validate items false text = Utils.Valid ->
  Utils.has_key items (Str.strip text) = false /\
  (Str.is_empty (Str.strip text) = true -> items <> []).
Proof.
  unfold Utils.ItemKeyValidator.validate. cbv zeta.
  destruct (Utils.has_key items (Str.strip text)); [discriminate|].
  destruct (Str.is_empty (Str.strip text)); cbn [andb negb].
  - destruct items; cbn [length Nat.eqb]; [discriminate|].
    intros _. split; [reflexivity|discriminate].
  - intros _. split; [reflexivity|discriminate].
Qed.

Lemma tidy_setitem (items : Items) (key value : string) :
  tidy items -> Utils.has_key items (Str.strip key) = false ->
  Str.is_empty (Str.strip key) = false ->
  tidy (Utils.setitem items (Str.strip key) (Str.strip value)).
Proof.
  intros (Hnd & Hall) Hnew Hne. rewrite setitem_new by assumption. split.
  - rewrite map_app. cbn [map fst].
    apply NoDup_app_remove_l with (l := []). cbn [app].
    apply NoDup_Add with (a := Str.strip key) (l := map fst items).
    + clear. induction (map fst items) as [|x l IH]; cbn [app];
        [constructor|now constructor].
    + split; [exact Hnd|now apply has_key_false].
  - apply Forall_app. split; [exact Hall|]. constructor; [|constructor].
    cbn [fst snd]. split; [exact Hne|]. split; apply strip_idem.
Qed.

(** The loop keeps the items tidy, only appends pairs, and does not end
    before there is a pair. *)
Lemma ask_items_inv (n : nat) :
  forall (script : list string) (items0 items : Items) (rest : list string),
    length script <= n -> tidy items0 ->
    Commands.ask_items items0 script = Some (items, rest) ->
    tidy items /\ (exists added, items = items0 ++ added) /\ items <> [].
Proof.
  induction n as [|n IH]; intros script items0 items rest Hlen Ht;
    destruct script as [|text script']; cbn [length] in Hlen;
    try discriminate; try lia.
  cbn [Commands.ask_items].
  destruct (Utils.ItemKeyValidator.validate items0 false text) eqn:Ev.
  - destruct (item_key_valid _ _ Ev) as (Hnew & Hempty).
    destruct (Str.is_empty (Str.strip text)) eqn:Ee.
    + intros [= <- <-]. split; [exact Ht|].
      split; [exists []; now rewrite app_nil_r|now apply Hempty].
    + destruct script' as [|text' script'']; [discriminate|].
      intros H. cbn [length] in Hlen.
      apply IH in H; [|lia|now apply tidy_setitem].
      destruct H as (Ht' & (added & Hadd) & Hn).
      split; [exact Ht'|]. split; [|exact Hn].
      rewrite setitem_new in Hadd by assumption.
      exists ((Str.strip text, Str.strip text') :: added).
      now rewrite Hadd, <- app_assoc.
  - intros H. apply IH in H; [exact H|lia|exact Ht].
Qed.

(** X11.  What the key-value loop of [add] and of [update] collects: started
    with tidy items (none, for [add]), whatever the user types, when the loop
    ends there is at least one pair, the pairs it started with are kept in
    place and the new ones follow them, the keys are distinct, not empty and
    stripped, and the values are stripped; a rejected key changes nothing.
    Typing a fresh key, a value and then an empty key ends the loop with
    exactly that pair added. *)
Theorem ask_items_collects (script rest : list string) (items0 items : Items) :
  tidy items0 ->
  Commands.ask_items items0 script = Some (items, rest) ->
  items <> [] /\ tidy items /\
  (exists added, items = items0 ++ added) /\
  (forall text, Utils.ItemKeyValidator.validate items false text
                  <> Utils.Valid ->
     Commands.ask_items items (text :: rest) = Commands.ask_items items rest) /\
  (forall key value more,
     Utils.has_key items (Str.strip key) = false ->
     Str.is_empty (Str.strip key) = false ->
     Commands.ask_items items (key :: value :: EmptyString :: more)
       = Some (items ++ [(Str.strip key, Str.strip value)], more)).
Proof.
  intros Ht0 H.
  destruct (ask_items_inv (length script) script items0 items rest (le_n _)
              Ht0 H) as (Ht & Hadd & Hne).
  split; [exact Hne|]. split; [exact Ht|]. split; [exact Hadd|]. split.
  - intros text Hv. cbn [Commands.ask_items].
    destruct (Utils.ItemKeyValidator.validate items false text);
      [now elim Hv|reflexivity].
  - intros key value more Hnew Hk. cbn [Commands.ask_items].
    unfold Utils.ItemKeyValidator.validate at 1. cbv zeta.
    rewrite Hnew, Hk. cbn [andb].
    rewrite setitem_new by assumption.
    unfold Utils.ItemKeyValidator.validate. cbv zeta.
    change (Str.strip EmptyString) with EmptyString.
    assert (Hfree : Utils.has_key (items ++ [(Str.strip key, Str.strip value)])
                      EmptyString = false).
    { unfold Utils.has_key. rewrite existsb_app. cbn [existsb fst].
      apply orb_false_iff. split.
      - destruct Ht as (_ & Hall). clear -Hall.
        induction Hall as [|[k v] l (Hk & _) _ IH]; [reflexivity|].
        cbn [existsb fst] in *. rewrite IH, orb_false_r.
        destruct k; [discriminate|reflexivity].
      - rewrite orb_false_r. destruct (Str.strip key); [discriminate|reflexivity]. }
    rewrite Hfree. cbn [Str.is_empty andb].
    rewrite length_app. cbn [length].
    replace (length items + 1 =? 0) with false
      by (symmetry; apply Nat.eqb_neq; lia).
    reflexivity.
Qed.

Lemma ask_items_collects_witness :
  let items := [("user", "alice"); ("pass", "x1")]%string in
  Commands.ask_items [] [" user"; "alice "; "user"; "pass"; "x1"; " "]%string
    = Some (items, []) /\
  items <> [] /\ tidy items.
Proof.
  cbv zeta.
  assert (H : Commands.ask_items []
                [" user"; "alice "; "user"; "pass"; "x1"; " "]%string
              = Some ([("user", "alice"); ("pass", "x1")]%string, []))
    by (vm_compute; reflexivity).
  assert (Hnil : tidy []) by (split; constructor).
  destruct (ask_items_collects _ _ _ _ Hnil H) as (Hne & Ht & _).
  split; [exact H|]. split; [exact Hne|exact Ht].
Defined.





(* ===================================================================== *)
(** ** Printing credentials *)
(* ===================================================================== *)

Lemma length_append' (a b : string) :
  String.length (String.append a b) = String.length a + String.length b.
Proof.
  induction a as [|c a IH]; cbn [String.append String.length]; [reflexivity|].
  now rewrite IH.
Qed.

Lemma length_spaces (n : nat) : String.length (Utils.spaces n) = n.
Proof.
  induction n as [|n IH]; cbn [Utils.spaces String.length]; [reflexivity|].
  now rewrite IH.
Qed.

Lemma longest_key_bound (items : Items) (kv : string * string) :
  In kv items ->
  String.length (fst kv)
  <= fold_right (fun kv m => Nat.max (String.length (fst kv)) m) 0 items.
Proof.
  induction items as [|x l IH]; cbn [In fold_right]; [contradiction|].
  intros [->|Hin]; [lia|]. specialize (IH Hin). lia.
Qed.

Lemma longest_key_attained (items : Items) :
  items <> [] ->
  Exists (fun kv => String.length (fst kv)
                    = fold_right (fun kv m => Nat.max (String.length (fst kv)) m)
                        0 items) items.
Proof.
  induction items as [|x l IH]; intros Hne; [now elim Hne|].
  cbn [fold_right].
  destruct (Nat.max_spec (String.length (fst x))
              (fold_right (fun kv m => Nat.max (String.length (fst kv)) m) 0 l))
    as [[Hlt ->]|[Hle ->]].
  - apply Exists_cons_tl. apply IH. intros ->. cbn [fold_right] in Hlt. lia.
  - now apply Exists_cons_hd.
Qed.

Lemma cred_str_outcome (style : string -> string) (c : string * Items) :
  match snd c with
  | [] => Utils.cred_str style c = Raise ValueError
  | _ => exists s, Utils.cred_str style c = Ok s
  end.
Proof.
  unfold Utils.cred_str, Utils.max_key_length.
  destruct (snd c); cbn [rbind]; [reflexivity|]. eexists. reflexivity.
Qed.

Lemma print_loop_outcome (style : string -> string) (last_name end_ : string)
      (credentials : list (string * Items)) :
  forall creds_str,
    (Exists (fun c => snd c = []) credentials ->
     Utils.print_loop style last_name end_ credentials creds_str
       = Raise ValueError) /\
    (Forall (fun c => snd c <> []) credentials ->
     exists s, Utils.print_loop style last_name end_ credentials creds_str = Ok s).
Proof.
  induction credentials as [|c l IH]; intros acc; cbn [Utils.print_loop].
  - split; [intros H; inversion H|]. intros _. now exists acc.
  - pose proof (cred_str_outcome style c) as Hc.
    destruct (snd c) as [|kv its] eqn:Es.
    + rewrite Hc. cbn [rbind]. split; [reflexivity|].
      intros H. inversion H as [|? ? Hne _]; subst. now elim Hne.
    + destruct Hc as (s & ->). cbn [rbind]. split.
      * intros H. apply Exists_cons in H as [Hx|Hx];
          [exfalso; cbv beta in Hx;
           assert (Hk : kv :: its = []) by (rewrite <- Es; exact Hx);
           discriminate Hk|].
        now apply IH.
      * intros H. inversion H; subst. now apply IH.
Qed.

(** X13.  [print_credentials] and records without items: it raises
    [ValueError] (the [max] of no key) as soon as one of the credentials has
    no item, and prints nothing then; it returns the text when every
    credential has an item.  Within a credential the keys are padded with
    blanks to the length of its longest key, which is the length of one of
    its keys, so that every [" = "] stands in the same column. *)
Theorem print_credentials_layout
  (style : string -> string) (credentials : list (string * Items))
  (start end_ : string) :
  (Exists (fun c => snd c = []) credentials ->
   Utils.print_credentials style credentials start end_ = Raise ValueError) /\
  (Forall (fun c => snd c <> []) credentials ->
   exists s, Utils.print_credentials style credentials start end_ = Ok s) /\
  (forall items m, Utils.max_key_length items = Ok m ->
     Forall (fun kv => String.length (Utils.key_column m (fst kv)) = 2 + m) items /\
     Exists (fun kv => String.length (fst kv) = m) items).
Proof.
  unfold Utils.print_credentials.
  split; [apply print_loop_outcome|]. split; [apply print_loop_outcome|].
  intros items m Hm. unfold Utils.max_key_length in Hm.
  destruct items as [|kv0 its] eqn:E; [discriminate|]. rewrite <- E in *.
  apply Ok_inj in Hm. subst m. split.
  - apply Forall_forall. intros kv Hin. unfold Utils.key_column.
    rewrite !length_append', length_spaces. cbn [String.length].
    pose proof (longest_key_bound items kv Hin). lia.
  - apply longest_key_attained. rewrite E. discriminate.
Qed.

Lemma print_credentials_layout_witness :
  Utils.print_credentials (fun s => s)
    [("Account", [("Username", "example"); ("Password", "example123")])]%string
    EmptyString EmptyString
  = Ok "[Account]
  Username = example
  Password = example123
"%string /\
  Utils.print_credentials (fun s => s)
    [("Account", [("User", "example")]); ("Empty", [])]%string
    EmptyString EmptyString
  = Raise ValueError.
Proof.
  split; [vm_compute; reflexivity|].
  apply (print_credentials_layout (fun s => s)).
  apply Exists_cons_tl, Exists_cons_hd. reflexivity.
Defined.

(* ===================================================================== *)
(** ** The name validator and [update] *)
(* ===================================================================== *)

Lemma update_by_ref_run (L : Lib) (w : World) (c : Credential) (nn : string)
      (ni : Items) :
  kdf_length L -> In c (table w) ->
  result (Database.update (ByRef c) nn ni) w =
    if name_taken (id c) nn (table w) then Raise IntegrityError else Ok tt.
Proof.
  intros Hkdf Hin. unfold result. rewrite update_run, resolve_run. cbn [fst].
  rewrite encrypt_run by assumption.
  assert (Hhas : existsb (has_id (id c)) (table w) = true).
  { apply existsb_exists. exists c. split; [exact Hin|now apply has_id_true]. }
  unfold commit, drawn. cbn [table flush flush1 rbind].
  rewrite Hhas. cbn [negb]. fold (name_taken (id c) nn (table w)).
  destruct (name_taken (id c) nn (table w)); reflexivity.
Qed.

(** X14.  The name validator of the [update] command is exact: for a record
    of a table with distinct ids and names, [CredentialNameValidator] with the
    name of the record allowed accepts a text exactly when the stripped text
    is not empty and [update] of the record to that name succeeds; a text it
    rejects is empty once stripped, or a name with which [update] raises
    [IntegrityError]. *)
Theorem name_validator_guards_update
  (L : Lib) (w : World) (c : Credential) (text : string) (new_items : Items) :
  kdf_length L ->
  unique_table (table w) ->
  In c (table w) ->
  let new_name := Str.strip text in
  let accepted :=
    Utils.accepts_in w
      (Utils.CredentialNameValidator.validate Database.exists_ (Some (name c))
         text) in
  (accepted = true <->
   Str.is_empty new_name = false /\
   result (Database.update (ByRef c) new_name new_items) w = Ok tt) /\
  (accepted = false ->
   Str.is_empty new_name = true \/
   result (Database.update (ByRef c) new_name new_items) w
     = Raise IntegrityError).
Proof.
  intros Hkdf Huniq Hin new_name accepted. subst new_name accepted.
  rewrite update_by_ref_run by assumption.
  unfold Utils.accepts_in, Utils.CredentialNameValidator.validate, result.
  cbv zeta.
  destruct (Str.is_empty (Str.strip text)) eqn:Ee.
  { cbn. split; [split; [discriminate|intros [? _]; discriminate]|now left]. }
  pose proof (name_taken_spec (table w) c (Str.strip text) Huniq Hin) as Hspec.
  destruct (String.eqb (Str.strip text) (name c)) eqn:Eown; cbn [negb].
  - apply String.eqb_eq in Eown.
    assert (Ht : name_taken (id c) (Str.strip text) (table w) = false).
    { destruct (name_taken _ _ _); [|reflexivity].
      destruct (proj1 Hspec eq_refl) as [Hne _]. congruence. }
    rewrite Ht. cbn. split; [split; [now split|reflexivity]|discriminate].
  - apply String.eqb_neq in Eown. unfold bind. rewrite exists_run.
    destruct (existsb (has_name (Str.strip text)) (table w)) eqn:Eex.
    + assert (Ht : name_taken (id c) (Str.strip text) (table w) = true)
        by (apply Hspec; now split).
      rewrite Ht. cbn.
      split; [split; [discriminate|intros [_ ?]; discriminate]|now right].
    + assert (Ht : name_taken (id c) (Str.strip text) (table w) = false).
      { destruct (name_taken _ _ _); [|reflexivity].
        destruct (proj1 Hspec eq_refl) as [_ Hex]. congruence. }
      rewrite Ht. cbn. split; [split; [now split|reflexivity]|discriminate].
Qed.

Lemma name_validator_guards_update_witness :
  let c := mkCredential 1 "GitHub" github_blob in
  Utils.accepts_in two_records
    (Utils.CredentialNameValidator.validate Database.exists_ (Some "GitHub"%string)
       " GitLab ") = false /\
  result (Database.update (L := Ref.lib) (ByRef c) "GitLab" github_items)
    two_records = Raise IntegrityError /\
  result (Database.update (L := Ref.lib) (ByRef c) "GitHub" github_items)
    two_records = Ok tt.
Proof.
  cbv zeta.
  assert (Hin : In (mkCredential 1 "GitHub" github_blob) (table two_records))
    by (left; vm_compute; reflexivity).
  destruct (name_validator_guards_update Ref.lib two_records
              (mkCredential 1 "GitHub" github_blob) " GitLab " github_items
              ref_kdf_length two_records_unique Hin) as (_ & Hrej).
  destruct (name_validator_guards_update Ref.lib two_records
              (mkCredential 1 "GitHub" github_blob) "GitHub" github_items
              ref_kdf_length two_records_unique Hin) as (Hacc & _).
  split; [vm_compute; reflexivity|]. split.
  - destruct (Hrej ltac:(vm_compute; reflexivity)) as [He|Hr];
      [vm_compute in He; discriminate|exact Hr].
  - apply Hacc. vm_compute. reflexivity.
Defined.

(* ===================================================================== *)
(** ** The record cipher on text *)
(* ===================================================================== *)

(** X15.  The round trip of the cipher without JSON: for every value,
    [_encrypt] returns a blob, and [_decrypt] of it under the same password,
    with the JSON flag off, returns the text that was encrypted: a string
    itself (which [_encrypt] does not pass to [json.dumps]), the JSON text of
    any other value.  With the flag on, the outcome is [json.loads] of that
    text: a string that is no JSON raises [JSONDecodeError].  Key derivation,
    cipher and UTF-8 codec are assumed to meet their contracts; the JSON codec
    is not. *)
Theorem encrypt_decrypt_text (L : Lib) (w : World) (data : pyval) :
  kdf_length L -> cbc_length L -> cbc_inverse L -> utf8_roundtrip L ->
  let text := match data with
              | VStr s => s
              | _ => json_dumps data
              end in
  exists blob,
    result (Database._encrypt data) w = Ok blob /\
    forall w', _pswd w' = _pswd w ->
      Database._decrypt blob false w' = (Ok (VStr text), w') /\
      Database._decrypt blob true w' =
        (match json_loads text with
         | Some v => Ok v
         | None => Raise JSONDecodeError
         end, w').
Proof.
  intros Hkdf Hlen Hinv Hutf text.
  eexists. split.
  - unfold result. rewrite encrypt_run by assumption. reflexivity.
  - intros w' Hp. rewrite !decrypt_run, Hp.
    rewrite !decrypt_blob_of by (assumption || apply window_length).
    unfold plaintext_of. fold text. rewrite Hutf. split; reflexivity.
Qed.

Lemma encrypt_decrypt_text_witness :
  exists blob,
    result (Database._encrypt (L := Ref.lib) (VStr "hunter2")) (Ref.fresh_world "pw")
      = Ok blob /\
    Database._decrypt (L := Ref.lib) blob false (Ref.fresh_world "pw")
      = (Ok (VStr "hunter2"), Ref.fresh_world "pw").
Proof.
  destruct (encrypt_decrypt_text Ref.lib (Ref.fresh_world "pw") (VStr "hunter2")
              ref_kdf_length ref_cbc_length ref_cbc_inverse ref_utf8_roundtrip)
    as (blob & Henc & Hdec).
  exists blob. split; [exact Henc|]. now apply Hdec.
Defined.
